(** * GraphQLQueryRunner: the query fetch orchestrator of Relay (legacy store)

    A shallow embedding of [src/legacy/store/GraphQLQueryRunner.js] and the
    properties of its ready-state machine, its readiness fast paths, its
    settlement handlers and its split/flatten adapter.

    The JavaScript closure created by [runQueries] is a record ([Runner])
    holding the closure variables ([readyState], [scheduled], the two
    remaining maps) together with the part of the event loop the closure
    talks to: the task handed to [RelayTaskScheduler.await], the callback
    handed to [runWithDiskCache], the [then] handlers attached to pending
    fetches, the closures queued with [resolveImmediate] and the list of
    states the caller's callback has received.  A handler that throws leaves
    the closure variables as they were at the [throw]; this is what
    [Completion] records. *)

From stdpp Require Import gmap strings list fin_maps sorting.

#[local] Set Warnings "-clear-no-such-hyp".

Set Default Proof Using "Type".
Open Scope string_scope.
Open Scope list_scope.

(** ** Data model *)

(** Modelled from the spec: the constant table [DliteFetchModeConstants] is
    not part of the sources; the spec names the modes CLIENT and REFETCH and
    mentions a third preload mode.  The runner only compares modes for
    equality and tests them for truthiness. *)
Module DliteFetchModeConstants.
Definition FETCH_MODE_CLIENT : string := "CLIENT".
Definition FETCH_MODE_PRELOAD : string := "PRELOAD".
Definition FETCH_MODE_REFETCH : string := "REFETCH".
End DliteFetchModeConstants.
Import DliteFetchModeConstants.

(** The attributes of a [RelayQuery.Root] the runner reads. *)
Record Query : Type := {
  getID : string;
  getName : string;
  isDeferred : bool;
  hasDeferredDescendant : bool;
}.

#[global] Instance Query_eq_dec : EqDecision Query.
Proof. solve_decision. Defined.

(** A [RelayQuerySet]: a JavaScript object from names to [?Query], iterated
    by [forEachObject] in insertion order. *)
Definition RelayQuerySet : Type := list (string * option Query).

(** A JavaScript [Error] object (always truthy); only its message matters. *)
Definition Error : Type := string.

(** A pending fetch: the parameters [RelayPendingQueryTracker.add] received
    and the identity of the object. *)
Record PendingFetch : Type := {
  getQuery : Query;
  getFetchMode : string;
  getForceIndex : option nat;
  instance : nat;
}.

#[global] Instance PendingFetch_eq_dec : EqDecision PendingFetch.
Proof. solve_decision. Defined.

Record ReadyState : Type := {
  aborted : bool;
  done : bool;
  error : option Error;
  ready : bool;
  stale : bool;
}.

#[global] Instance ReadyState_eq_dec : EqDecision ReadyState.
Proof. solve_decision. Defined.

(** [PartialReadyState]: every field is optional. *)
Record PartialReadyState : Type := {
  p_aborted : option bool;
  p_done : option bool;
  p_error : option Error;
  p_ready : option bool;
  p_stale : option bool;
}.

(** JavaScript truthiness of an optional boolean field. *)
Definition truthy (b : option bool) : bool := default false b.

(** [QueryRunnerProfiles]: the profile name and how often each handler was
    stopped. *)
Record QueryRunnerProfiles : Type := {
  profileName : string;
  doneStops : nat;
  initializeStops : nat;
  readyStops : nat;
}.

Record Runner : Type := {
  (* closure variables of runQueries *)
  readyState : ReadyState;
  scheduled : bool;
  remainingFetchMap : gmap string PendingFetch;
  remainingRequiredFetchMap : gmap string PendingFetch;
  (* parameters of runQueries *)
  queries : list Query;
  fetchMode : string;
  profilers : QueryRunnerProfiles;
  (* the event loop, as far as this closure is concerned *)
  awaiting : bool;                  (* task given to RelayTaskScheduler.await, not yet run *)
  diskCacheCallbacks : nat;         (* callbacks given to runWithDiskCache, not yet run *)
  handlers : list PendingFetch;     (* then-handlers attached, not yet fired *)
  immediates : nat;                 (* closures queued with resolveImmediate *)
  delivered : list ReadyState;      (* arguments of the caller's callback, oldest first *)
}.

Definition set_readyState (s : ReadyState) (r : Runner) : Runner :=
  {| readyState := s; scheduled := scheduled r;
     remainingFetchMap := remainingFetchMap r;
     remainingRequiredFetchMap := remainingRequiredFetchMap r;
     queries := queries r; fetchMode := fetchMode r; profilers := profilers r;
     awaiting := awaiting r; diskCacheCallbacks := diskCacheCallbacks r;
     handlers := handlers r; immediates := immediates r;
     delivered := delivered r |}.

Definition set_maps (m mr : gmap string PendingFetch) (r : Runner) : Runner :=
  {| readyState := readyState r; scheduled := scheduled r;
     remainingFetchMap := m;
     remainingRequiredFetchMap := mr;
     queries := queries r; fetchMode := fetchMode r; profilers := profilers r;
     awaiting := awaiting r; diskCacheCallbacks := diskCacheCallbacks r;
     handlers := handlers r; immediates := immediates r;
     delivered := delivered r |}.

Definition set_profilers (p : QueryRunnerProfiles) (r : Runner) : Runner :=
  {| readyState := readyState r; scheduled := scheduled r;
     remainingFetchMap := remainingFetchMap r;
     remainingRequiredFetchMap := remainingRequiredFetchMap r;
     queries := queries r; fetchMode := fetchMode r; profilers := p;
     awaiting := awaiting r; diskCacheCallbacks := diskCacheCallbacks r;
     handlers := handlers r; immediates := immediates r;
     delivered := delivered r |}.

(** The event-loop part: [scheduled] is listed here because the closure
    queued with [resolveImmediate] writes it. *)
Definition set_loop (sch aw : bool) (dc : nat) (hs : list PendingFetch)
    (im : nat) (dl : list ReadyState) (r : Runner) : Runner :=
  {| readyState := readyState r; scheduled := sch;
     remainingFetchMap := remainingFetchMap r;
     remainingRequiredFetchMap := remainingRequiredFetchMap r;
     queries := queries r; fetchMode := fetchMode r; profilers := profilers r;
     awaiting := aw; diskCacheCallbacks := dc;
     handlers := hs; immediates := im;
     delivered := dl |}.

(** What a call leaves behind: it returns, or it throws; either way the
    closure variables are as the call left them. *)
Inductive Completion (A : Type) : Type :=
| Returns (a : A)
| Throws (msg : string) (a : A).
Arguments Returns {A} a.
Arguments Throws {A} msg a.

Definition after {A : Type} (c : Completion A) : A :=
  match c with Returns a => a | Throws _ a => a end.

Definition threw {A : Type} (c : Completion A) : bool :=
  match c with Returns _ => false | Throws _ _ => true end.

(** ** Helpers of the module *)

(** [!!Object.keys(map).length] *)
Definition hasItems {V : Type} (map : gmap string V) : bool :=
  negb (Nat.eqb (length (map_to_list map)) 0).

(** [everyObject] and [someObject] of fbjs, on the values of the object. *)
Definition everyObject {V : Type} (map : gmap string V) (f : V → bool) : bool :=
  forallb (λ kv, f kv.2) (map_to_list map).

Definition someObject {V : Type} (map : gmap string V) (f : V → bool) : bool :=
  existsb (λ kv, f kv.2) (map_to_list map).

(** [canResolve]: [checkRelayQueryData] on the queued store, which the
    caller of the model supplies as a predicate on queries. *)
Definition canResolve (checkRelayQueryData : Query → bool)
    (fetch : PendingFetch) : bool :=
  checkRelayQueryData (getQuery fetch).

Definition createProfiles (fetchMode : string) : QueryRunnerProfiles :=
  let profileName :=
    if decide (fetchMode = FETCH_MODE_REFETCH) then "forceFetch" else "primeCache" in
  {| profileName := profileName; doneStops := 0; initializeStops := 0;
     readyStops := 0 |}.

Definition stop_ready (p : QueryRunnerProfiles) : QueryRunnerProfiles :=
  {| profileName := profileName p; doneStops := doneStops p;
     initializeStops := initializeStops p; readyStops := S (readyStops p) |}.

Definition stop_done (p : QueryRunnerProfiles) : QueryRunnerProfiles :=
  {| profileName := profileName p; doneStops := S (doneStops p);
     initializeStops := initializeStops p; readyStops := readyStops p |}.

Definition stop_initialize (p : QueryRunnerProfiles) : QueryRunnerProfiles :=
  {| profileName := profileName p; doneStops := doneStops p;
     initializeStops := S (initializeStops p); readyStops := readyStops p |}.

(** ** The ready-state machine *)

(** The object literal of [setReadyState]: a field of [partial] that is not
    [null] or [undefined] replaces the stored one. *)
Definition mergeReadyState (partial : PartialReadyState) (s : ReadyState)
    : ReadyState :=
  {| aborted := default (aborted s) (p_aborted partial);
     done := default (done s) (p_done partial);
     error := match p_error partial with Some e => Some e | None => error s end;
     ready := default (ready s) (p_ready partial);
     stale := default (stale s) (p_stale partial) |}.

Definition unexpected : string :=
  "GraphQLQueryRunner: Unexpected ready state change.".

Definition setReadyState (partial : PartialReadyState) (r : Runner)
    : Completion Runner :=
  let s := readyState r in
  if aborted s then Returns r
  else if done s || bool_decide (is_Some (error s)) then
    (* invariant(partial.aborted, ...); return; *)
    if truthy (p_aborted partial) then Returns r else Throws unexpected r
  else
    let r1 := if truthy (p_ready partial) && negb (ready s)
              then set_profilers (stop_ready (profilers r)) r else r in
    let r2 := if truthy (p_done partial) && negb (done s)
              then set_profilers (stop_done (profilers r1)) r1 else r1 in
    let r3 := set_readyState (mergeReadyState partial s) r2 in
    if scheduled r3 then Returns r3
    else Returns (set_loop true (awaiting r3) (diskCacheCallbacks r3)
                    (handlers r3) (S (immediates r3)) (delivered r3) r3).

(** The closure queued by [resolveImmediate]: it clears [scheduled] and calls
    the callback with the state as it is then. *)
Definition runImmediate (r : Runner) : Runner :=
  match immediates r with
  | 0 => r
  | S n => set_loop false (awaiting r) (diskCacheCallbacks r) (handlers r) n
             (delivered r ++ [readyState r]) r
  end.

(** ** Settlement handlers *)

Definition resolvedPartial (isDone : bool) : PartialReadyState :=
  {| p_aborted := None; p_done := Some isDone; p_error := None;
     p_ready := Some true; p_stale := Some false |}.

Definition onResolved (isResolvable : PendingFetch → bool)
    (pendingFetch : PendingFetch) (r : Runner) : Completion Runner :=
  let pendingQuery := getQuery pendingFetch in
  let pendingQueryID := getID pendingQuery in
  let m := delete pendingQueryID (remainingFetchMap r) in
  let mr := if negb (isDeferred pendingQuery)
            then delete pendingQueryID (remainingRequiredFetchMap r)
            else remainingRequiredFetchMap r in
  let r1 := set_maps m mr r in
  if hasItems (remainingRequiredFetchMap r1) then Returns r1
  else if someObject (remainingFetchMap r1) isResolvable then Returns r1
  else if hasItems (remainingFetchMap r1)
       then setReadyState (resolvedPartial false) r1
       else setReadyState (resolvedPartial true) r1.

Definition errorPartial (e : Error) : PartialReadyState :=
  {| p_aborted := None; p_done := None; p_error := Some e;
     p_ready := None; p_stale := None |}.

Definition onRejected (pendingFetch : PendingFetch) (e : Error) (r : Runner)
    : Completion Runner :=
  match setReadyState (errorPartial e) r with
  | Throws msg r1 => Throws msg r1
  | Returns r1 =>
      let pendingQuery := getQuery pendingFetch in
      let pendingQueryID := getID pendingQuery in
      let m := delete pendingQueryID (remainingFetchMap r1) in
      let mr := if negb (isDeferred pendingQuery)
                then delete pendingQueryID (remainingRequiredFetchMap r1)
                else remainingRequiredFetchMap r1 in
      Returns (set_maps m mr r1)
  end.

Definition abortPartial : PartialReadyState :=
  {| p_aborted := Some true; p_done := None; p_error := None;
     p_ready := None; p_stale := None |}.

(** The [abort] method of the handle [runQueries] returns. *)
Definition abort (r : Runner) : Completion Runner :=
  setReadyState abortPartial r.

(** ** What is shared between invocations *)

Record World : Type := {
  registry : gmap string PendingFetch;   (* fetches outstanding, by query id *)
  nextInstance : nat;                    (* identity of the next PendingFetch *)
  issued : list string;                  (* ids of the queries whose fetch was begun *)
  forceIndexCounter : nat;               (* state of generateForceIndex *)
  warnings : list string;                (* names of the queries warned about *)
}.

(** Modelled from the spec: [RelayPendingQueryTracker.add] is not part of the
    sources.  Section 4.1: "If a PendingFetch for an equivalent query identity
    is already outstanding, returns the same instance (fan-in); otherwise
    constructs a new one, begins its underlying fetch, and returns it." *)
Definition RelayPendingQueryTracker_add (query : Query) (mode : string)
    (forceIndex : option nat) (w : World) : PendingFetch * World :=
  match registry w !! getID query with
  | Some pendingFetch => (pendingFetch, w)
  | None =>
      let pendingFetch :=
        {| getQuery := query; getFetchMode := mode;
           getForceIndex := forceIndex; instance := nextInstance w |} in
      (pendingFetch,
       {| registry := <[getID query := pendingFetch]> (registry w);
          nextInstance := S (nextInstance w);
          issued := issued w ++ [getID query];
          forceIndexCounter := forceIndexCounter w;
          warnings := warnings w |})
  end.

(** Modelled from the spec: the completion listener of the registry, which
    "removes the entry from the registry when the fetch settles". *)
Definition RelayPendingQueryTracker_settle (queryID : string) (w : World)
    : World :=
  {| registry := delete queryID (registry w);
     nextInstance := nextInstance w;
     issued := issued w;
     forceIndexCounter := forceIndexCounter w;
     warnings := warnings w |}.

(** Modelled from the spec: [generateForceIndex] is not part of the sources;
    the force index is "an opaque monotonically-increasing tag". *)
Definition generateForceIndex (w : World) : nat * World :=
  (forceIndexCounter w,
   {| registry := registry w; nextInstance := nextInstance w;
      issued := issued w; forceIndexCounter := S (forceIndexCounter w);
      warnings := warnings w |}).

Definition warn (names : list string) (w : World) : World :=
  {| registry := registry w; nextInstance := nextInstance w;
     issued := issued w; forceIndexCounter := forceIndexCounter w;
     warnings := warnings w ++ names |}.

(** ** Collaborators *)

(** The collaborators the runner calls and does not define: the diffing of a
    query against the store and the query tracker, the splitting of deferred
    queries, the flattening of the split result, and the feature test of the
    network layer. *)
Class Collaborators : Type := {
  SplitQueries : Type;
  diffRelayQuery : Query → list Query;
  splitDeferredRelayQueries : Query → SplitQueries;
  flattenSplitRelayQueries : SplitQueries → list Query;
  supports : string → bool;
}.

(** The result of [splitAndFlattenQueries] with its two effects: the names
    passed to [warning] and the queries passed to
    [splitDeferredRelayQueries], in call order. *)
Record Flattened : Type := {
  flattenedQueries : list Query;
  warned : list string;
  splitCalls : list Query;
}.

(** [queries.some(query => ...)] with the warning the callback emits:
    [some] stops at the first query for which the callback returns [true]. *)
Fixpoint someDeferredDescendant (queries : list Query) : bool * list string :=
  match queries with
  | [] => (false, [])
  | query :: rest =>
      if hasDeferredDescendant query then (true, [getName query])
      else someDeferredDescendant rest
  end.

Section Runner.
Context `{Collaborators}.

Definition splitAll (queries : list Query) : Flattened :=
  {| flattenedQueries :=
       flat_map (λ query,
         flattenSplitRelayQueries (splitDeferredRelayQueries query)) queries;
     warned := [];
     splitCalls := queries |}.

Definition splitAndFlattenQueries (queries : list Query) : Flattened :=
  if negb (supports "defer") then
    let '(hasDeferred, names) := someDeferredDescendant queries in
    if hasDeferred then
      {| flattenedQueries := queries; warned := names; splitCalls := [] |}
    else
      {| flattenedQueries := flattenedQueries (splitAll queries);
         warned := names;
         splitCalls := splitCalls (splitAll queries) |}
  else splitAll queries.

(** ** [runQueries] *)

Definition initialReadyState : ReadyState :=
  {| aborted := false; done := false; error := None; ready := false;
     stale := false |}.

(** The synchronous part of [runQueries]: the closure is created, the task is
    handed to [RelayTaskScheduler.await], the [initialize] profiler is
    stopped, and the handle is returned. *)
Definition runQueries (queries : list Query) (fetchMode : string)
    (profilers : QueryRunnerProfiles) : Runner :=
  {| readyState := initialReadyState; scheduled := false;
     remainingFetchMap := ∅; remainingRequiredFetchMap := ∅;
     queries := queries; fetchMode := fetchMode;
     profilers := stop_initialize profilers;
     awaiting := true; diskCacheCallbacks := 0; handlers := [];
     immediates := 0; delivered := [] |}.

(** The body of the [forEach] in the awaited task. *)
Definition registerQuery (mode : string) (forceIndex : option nat)
    (acc : World * Runner) (query : Query) : World * Runner :=
  let '(pendingFetch, w) :=
    RelayPendingQueryTracker_add query mode forceIndex acc.1 in
  let r := acc.2 in
  let queryID := getID query in
  let m := <[queryID := pendingFetch]> (remainingFetchMap r) in
  let mr := if negb (isDeferred query)
            then <[queryID := pendingFetch]> (remainingRequiredFetchMap r)
            else remainingRequiredFetchMap r in
  let r1 := set_maps m mr r in
  (w, set_loop (scheduled r1) (awaiting r1) (diskCacheCallbacks r1)
        (handlers r1 ++ [pendingFetch]) (immediates r1) (delivered r1) r1).

Definition doneReadyPartial : PartialReadyState :=
  {| p_aborted := None; p_done := Some true; p_error := None;
     p_ready := Some true; p_stale := None |}.

Definition readyPartial (isReady : bool) : PartialReadyState :=
  {| p_aborted := None; p_done := None; p_error := None;
     p_ready := Some isReady; p_stale := None |}.

Definition readyStalePartial : PartialReadyState :=
  {| p_aborted := None; p_done := None; p_error := None;
     p_ready := Some true; p_stale := Some true |}.

(** The task handed to [RelayTaskScheduler.await]. *)
Definition awaitedTask (w : World) (r : Runner) : World * Completion Runner :=
  let '(forceIndex, w1) :=
    if decide (fetchMode r = FETCH_MODE_REFETCH)
    then let '(i, w') := generateForceIndex w in (Some i, w')
    else (None, w) in
  let flat := splitAndFlattenQueries (queries r) in
  let w2 := warn (warned flat) w1 in
  let '(w3, r1) :=
    foldl (registerQuery (fetchMode r) forceIndex) (w2, r)
      (flattenedQueries flat) in
  (w3,
   if negb (hasItems (remainingFetchMap r1)) then
     setReadyState doneReadyPartial r1
   else if negb (hasItems (remainingRequiredFetchMap r1)) then
     setReadyState (readyPartial true) r1
   else
     match setReadyState (readyPartial false) r1 with
     | Throws msg r2 => Throws msg r2
     | Returns r2 =>
         (* storeData.runWithDiskCache(() => ...) *)
         Returns (set_loop (scheduled r2) (awaiting r2)
                    (S (diskCacheCallbacks r2)) (handlers r2)
                    (immediates r2) (delivered r2) r2)
     end).

(** The callback handed to [runWithDiskCache]. *)
Definition diskCacheCallback (checkRelayQueryData : Query → bool)
    (r : Runner) : Completion Runner :=
  if hasItems (remainingRequiredFetchMap r) then
    if everyObject (remainingRequiredFetchMap r)
         (canResolve checkRelayQueryData)
    then setReadyState readyStalePartial r
    else Returns r
  else Returns r.

(** ** The entry points *)

Definition run (querySet : RelayQuerySet) (mode : option string) : Runner :=
  (* fetchMode = fetchMode || FETCH_MODE_CLIENT *)
  let fetchMode :=
    match mode with
    | Some m => if decide (m = "") then FETCH_MODE_CLIENT else m
    | None => FETCH_MODE_CLIENT
    end in
  let profilers := createProfiles fetchMode in
  let diffQueries :=
    if decide (fetchMode = FETCH_MODE_CLIENT) then
      flat_map (λ entry : string * option Query,
        match entry.2 with
        | Some query => diffRelayQuery query
        | None => []
        end) querySet
    else
      flat_map (λ entry : string * option Query,
        match entry.2 with
        | Some query => [query]
        | None => []
        end) querySet in
  runQueries diffQueries fetchMode profilers.

Definition forceFetch (querySet : RelayQuerySet) : Runner :=
  let fetchMode := FETCH_MODE_REFETCH in
  let profilers := createProfiles fetchMode in
  let queries :=
    flat_map (λ entry : string * option Query,
      match entry.2 with
      | Some query => [query]
      | None => []
      end) querySet in
  runQueries queries fetchMode profilers.

(** ** One invocation in the event loop *)

Inductive Event : Type :=
| EvAwait                                         (* the awaited task runs *)
| EvDiskCache (checkRelayQueryData : Query → bool) (* the disk-cache callback runs *)
| EvResolved (pendingFetch : PendingFetch) (isResolvable : PendingFetch → bool)
| EvRejected (pendingFetch : PendingFetch) (e : Error)
| EvAbort                                         (* the caller calls abort() *)
| EvImmediate.                                    (* a resolveImmediate closure runs *)

(** Removes the first handler attached to [pendingFetch], if there is one. *)
Fixpoint fire (pendingFetch : PendingFetch) (hs : list PendingFetch)
    : option (list PendingFetch) :=
  match hs with
  | [] => None
  | h :: rest =>
      if decide (h = pendingFetch) then Some rest
      else option_map (cons h) (fire pendingFetch rest)
  end.

Definition set_handlers (hs : list PendingFetch) (r : Runner) : Runner :=
  set_loop (scheduled r) (awaiting r) (diskCacheCallbacks r) hs
    (immediates r) (delivered r) r.

(** One turn of the event loop.  An event that is not enabled (the task has
    already run, no such handler is attached, nothing is queued) changes
    nothing; an exception thrown by a handler ends that handler only. *)
Definition step (c : World * Runner) (ev : Event) : World * Runner :=
  let '(w, r) := c in
  match ev with
  | EvAwait =>
      if awaiting r then
        let r0 := set_loop (scheduled r) false (diskCacheCallbacks r)
                    (handlers r) (immediates r) (delivered r) r in
        let '(w', out) := awaitedTask w r0 in (w', after out)
      else (w, r)
  | EvDiskCache check =>
      match diskCacheCallbacks r with
      | 0 => (w, r)
      | S n =>
          let r0 := set_loop (scheduled r) (awaiting r) n (handlers r)
                      (immediates r) (delivered r) r in
          (w, after (diskCacheCallback check r0))
      end
  | EvResolved pendingFetch isResolvable =>
      match fire pendingFetch (handlers r) with
      | None => (w, r)
      | Some hs =>
          (w, after (onResolved isResolvable pendingFetch (set_handlers hs r)))
      end
  | EvRejected pendingFetch e =>
      match fire pendingFetch (handlers r) with
      | None => (w, r)
      | Some hs => (w, after (onRejected pendingFetch e (set_handlers hs r)))
      end
  | EvAbort => (w, after (abort r))
  | EvImmediate => (w, runImmediate r)
  end.

Definition exec (events : list Event) (c : World * Runner) : World * Runner :=
  foldl step c events.

End Runner.

Definition initialWorld : World :=
  {| registry := ∅; nextInstance := 0; issued := []; forceIndexCounter := 1;
     warnings := [] |}.

(** ** Vocabulary of the statements *)

(** [setReadyState] merges its argument exactly when the stored state is
    neither aborted, nor done, nor failed. *)
Definition accepts (s : ReadyState) : bool :=
  negb (aborted s) && negb (done s || bool_decide (is_Some (error s))).

(** Everything of a runner but the state, the [scheduled] flag, the queue of
    immediates and the profilers. *)
Definition surroundings (r : Runner) :=
  (remainingFetchMap r, remainingRequiredFetchMap r, queries r, fetchMode r,
   awaiting r, diskCacheCallbacks r, handlers r, delivered r).

(** The part of a runner the caller can observe or that decides what is
    delivered: the state, the [scheduled] flag, the number of queued
    immediates and the deliveries made so far. *)
Definition control (r : Runner) : ReadyState * bool * nat * list ReadyState :=
  (readyState r, scheduled r, immediates r, delivered r).

Definition applyPartial (partial : PartialReadyState)
    (c : ReadyState * bool * nat * list ReadyState)
    : ReadyState * bool * nat * list ReadyState :=
  let '(s, sch, im, dl) := c in
  if accepts s
  then (mergeReadyState partial s, true, if sch then im else S im, dl)
  else c.

(** A burst: several calls of [setReadyState] with no turn of the event loop
    in between.  A call that throws changes nothing, so the burst is followed
    through it. *)
Definition burst (partials : list PartialReadyState) (r : Runner) : Runner :=
  foldl (λ r' partial, after (setReadyState partial r')) r partials.

(** The state a burst leaves: every update the machine accepts, merged in
    call order. *)
Definition mergeAll (partials : list PartialReadyState) (s : ReadyState)
    : ReadyState :=
  foldl (λ s' partial, if accepts s' then mergeReadyState partial s' else s')
    s partials.

(** An update after which the machine is closed: it sets [aborted] or [done],
    or it carries an error. *)
Definition closes (partial : PartialReadyState) : bool :=
  truthy (p_aborted partial) || truthy (p_done partial)
  || bool_decide (is_Some (p_error partial)).

(** The updates of a burst that reach the object literal of [setReadyState]
    when the burst starts on an open machine: all of them up to and including
    the first that closes it. *)
Fixpoint taken (partials : list PartialReadyState) : list PartialReadyState :=
  match partials with
  | [] => []
  | partial :: rest => partial :: (if closes partial then [] else taken rest)
  end.

(** The last value that a list of updates gives to a field, if any of them
    gives one. *)
Definition lastGiven {A : Type} (field : PartialReadyState → option A)
    (partials : list PartialReadyState) : option A :=
  last (omap field partials).

(** The queue holds one delivery when [scheduled] is set and none otherwise. *)
Definition tidy (r : Runner) : Prop :=
  immediates r = if scheduled r then 1 else 0.

(** [ready] and [done] only grow from [s] to [t]. *)
Definition ReadyState_le (s t : ReadyState) : Prop :=
  Bool.le (ready s) (ready t) ∧ Bool.le (done s) (done t).

(** The argument an event passes to [setReadyState], when it calls it. *)
Inductive Emitted (r : Runner) : Event → PartialReadyState → Prop :=
| emitted_done : awaiting r = true → Emitted r EvAwait doneReadyPartial
| emitted_ready isReady :
    awaiting r = true → Emitted r EvAwait (readyPartial isReady)
| emitted_stale check : Emitted r (EvDiskCache check) readyStalePartial
| emitted_resolved pendingFetch isResolvable isDone :
    Emitted r (EvResolved pendingFetch isResolvable) (resolvedPartial isDone)
| emitted_error pendingFetch e :
    Emitted r (EvRejected pendingFetch e) (errorPartial e)
| emitted_abort : Emitted r EvAbort abortPartial.

(** While the awaited task has not run, no disk-cache callback and no
    settlement handler exists, and nothing has made the state ready. *)
Definition waiting_ok (r : Runner) : Prop :=
  awaiting r = true →
  diskCacheCallbacks r = 0 ∧ handlers r = [] ∧ ready (readyState r) = false.

(** The deliveries made so far never lost [ready] or [done], and the stored
    state is above all of them. *)
Definition chained (r : Runner) : Prop :=
  StronglySorted ReadyState_le (delivered r)
  ∧ Forall (λ s, ReadyState_le s (readyState r)) (delivered r).

Definition sound (r : Runner) : Prop := tidy r ∧ waiting_ok r ∧ chained r.

(** The first readiness state, as the spec words it: done when no query
    needs fetching, ready when every query that does is deferred, and not
    ready otherwise. *)
Definition firstReadyState (flat : list Query) : ReadyState :=
  match flat with
  | [] => {| aborted := false; done := true; error := None; ready := true;
             stale := false |}
  | _ :: _ =>
      if forallb isDeferred flat
      then {| aborted := false; done := false; error := None; ready := true;
              stale := false |}
      else {| aborted := false; done := false; error := None; ready := false;
              stale := false |}
  end.

(** A closure as [runQueries] leaves it. *)
Definition fresh (r : Runner) : Prop :=
  control r = (initialReadyState, false, 0, [])
  ∧ remainingFetchMap r = ∅ ∧ remainingRequiredFetchMap r = ∅
  ∧ diskCacheCallbacks r = 0.

Definition doneReadyState : ReadyState :=
  {| aborted := false; done := true; error := None; ready := true;
     stale := false |}.

Definition readyStaleState : ReadyState :=
  {| aborted := false; done := false; error := None; ready := true;
     stale := true |}.

(** How many fetches were begun for [queryID]. *)
Definition issuedFor (queryID : string) (w : World) : nat :=
  length (filter (λ x, x = queryID) (issued w)).

(** What other invocations and the network do to the registry between two
    events of one invocation. *)
Inductive RegistryOp : Type :=
| OpAdd (query : Query) (mode : string) (forceIndex : option nat)
| OpSettle (queryID : string).

Definition applyOp (w : World) (op : RegistryOp) : World :=
  match op with
  | OpAdd query mode forceIndex =>
      (RelayPendingQueryTracker_add query mode forceIndex w).2
  | OpSettle queryID => RelayPendingQueryTracker_settle queryID w
  end.

(** The part of the world the registration of queries leaves alone. *)
Definition sameCounters (w w' : World) : Prop :=
  forceIndexCounter w' = forceIndexCounter w ∧ warnings w' = warnings w.

(** What the registry holds for [queryID] after some fetches were added with
    [mode] and [forceIndex]: the fetch that was outstanding, or a new one
    made with these parameters, whose fetch was begun once. *)
Definition addedWith (mode : string) (forceIndex : option nat)
    (queryID : string) (w w' : World) : Prop :=
  match registry w !! queryID with
  | Some pendingFetch =>
      registry w' !! queryID = Some pendingFetch
      ∧ issuedFor queryID w' = issuedFor queryID w
  | None =>
      registry w' !! queryID = None ∧ issuedFor queryID w' = issuedFor queryID w
      ∨ ∃ pendingFetch,
          registry w' !! queryID = Some pendingFetch
          ∧ getFetchMode pendingFetch = mode
          ∧ getForceIndex pendingFetch = forceIndex
          ∧ getID (getQuery pendingFetch) = queryID
          ∧ issuedFor queryID w' = S (issuedFor queryID w)
  end.

(** The remaining map and the registry hold the same fetch for [queryID]. *)
Definition agree (queryID : string) (c : World * Runner) : Prop :=
  is_Some (registry c.1 !! queryID)
  ∧ remainingFetchMap c.2 !! queryID = registry c.1 !! queryID.

(** The force index the awaited task attaches to the fetches it adds. *)
Definition taskForceIndex (w : World) (r : Runner) : option nat :=
  if decide (fetchMode r = FETCH_MODE_REFETCH)
  then Some (forceIndexCounter w) else None.

Section Statements.
Context `{Collaborators}.

(** An invocation of the runner: [forceFetch querySet], or
    [run querySet mode]. *)
Definition invocation (viaForceFetch : bool) (querySet : RelayQuerySet)
    (mode : option string) : Runner :=
  if viaForceFetch then forceFetch querySet else run querySet mode.

(** C8 as the claim words it, to be compared with [splitAndFlattenQueries]:
    without [defer] support a query with a deferred descendant is sent as it
    is, with a warning, and every other query still goes through the
    splitting collaborator. *)
Definition splitAndFlattenQueries_perQuery (queries : list Query)
    : Flattened :=
  let bypass query := negb (supports "defer") && hasDeferredDescendant query in
  {| flattenedQueries :=
       flat_map (λ query,
         if bypass query then [query]
         else flattenSplitRelayQueries (splitDeferredRelayQueries query))
         queries;
     warned := getName <$> filter (λ query, bypass query = true) queries;
     splitCalls := filter (λ query, bypass query = false) queries |}.

End Statements.

(** ** Vocabulary of the further properties *)

(** The shape every state of an invocation has: a done state is ready, not
    stale and carries no error; a stale state is ready; and at most one of
    [aborted], [done] and [error] is set. *)
Definition wellShaped (s : ReadyState) : Prop :=
  (done s = true → ready s = true ∧ stale s = false ∧ error s = None)
  ∧ (stale s = true → ready s = true)
  ∧ (aborted s = true → done s = false ∧ error s = None).

(** The state and what the profilers have recorded. *)
Definition progress (r : Runner) : ReadyState * QueryRunnerProfiles :=
  (readyState r, profilers r).

(** The [ready] and [done] profilers were stopped exactly when the state
    became ready and done, and the [initialize] profiler once. *)
Definition profiled (r : Runner) : Prop :=
  readyStops (profilers r) = (if ready (readyState r) then 1 else 0)
  ∧ doneStops (profilers r) = (if done (readyState r) then 1 else 0)
  ∧ initializeStops (profilers r) = 1.

(** While the awaited task has not run, no error is stored and both remaining
    maps are empty. *)
Definition unstarted (r : Runner) : Prop :=
  awaiting r = true →
  error (readyState r) = None
  ∧ remainingFetchMap r = ∅ ∧ remainingRequiredFetchMap r = ∅.

(** The id under which a pending fetch is deleted from the remaining maps. *)
Definition fetchID (pendingFetch : PendingFetch) : string :=
  getID (getQuery pendingFetch).

(** The events of a run in which no fetch rejects and the caller does not
    abort. *)
Definition quiet (ev : Event) : bool :=
  match ev with
  | EvRejected _ _ | EvAbort => false
  | _ => true
  end.

(** A fetch outstanding in the registry under the id of one of [flat] is a
    fetch of that very query. *)
Definition matched (w : World) (flat : list Query) : Prop :=
  ∀ query pendingFetch,
    query ∈ flat → registry w !! getID query = Some pendingFetch →
    getQuery pendingFetch = query.

(** The bookkeeping of a run without rejection and abort: before the awaited
    task the closure is as [runQueries] left it; afterwards the remaining maps
    hold exactly the ids of the handlers that have not fired, and the state is
    done exactly when none is left. *)
Definition booked (r : Runner) : Prop :=
  if awaiting r then fresh r ∧ handlers r = []
  else
    aborted (readyState r) = false ∧ error (readyState r) = None
    ∧ NoDup (fetchID <$> handlers r)
    ∧ dom (remainingFetchMap r) = list_to_set (fetchID <$> handlers r)
    ∧ dom (remainingRequiredFetchMap r) =
        list_to_set (fetchID <$>
          filter (λ pf, isDeferred (getQuery pf) = false) (handlers r))
    ∧ done (readyState r) = bool_decide (handlers r = [])
    ∧ (readyState r = doneReadyState ∨ done (readyState r) = false).

Section FurtherStatements.
Context `{Collaborators}.

(** Whether the handler an event runs throws. *)
Definition stepThrows (c : World * Runner) (ev : Event) : bool :=
  let '(w, r) := c in
  match ev with
  | EvAwait =>
      if awaiting r then
        threw (awaitedTask w
                 (set_loop (scheduled r) false (diskCacheCallbacks r)
                    (handlers r) (immediates r) (delivered r) r)).2
      else false
  | EvDiskCache check =>
      match diskCacheCallbacks r with
      | 0 => false
      | S n =>
          threw (diskCacheCallback check
                   (set_loop (scheduled r) (awaiting r) n (handlers r)
                      (immediates r) (delivered r) r))
      end
  | EvResolved pendingFetch isResolvable =>
      match fire pendingFetch (handlers r) with
      | None => false
      | Some hs => threw (onResolved isResolvable pendingFetch (set_handlers hs r))
      end
  | EvRejected pendingFetch e =>
      match fire pendingFetch (handlers r) with
      | None => false
      | Some hs => threw (onRejected pendingFetch e (set_handlers hs r))
      end
  | EvAbort => threw (abort r)
  | EvImmediate => false
  end.

(** Whether some handler throws in the course of [events]. *)
Fixpoint execThrows (events : list Event) (c : World * Runner) : bool :=
  match events with
  | [] => false
  | ev :: rest => stepThrows c ev || execThrows rest (step c ev)
  end.

End FurtherStatements.

(** ** Inputs of the examples *)

(** What the example splitter makes of a query that has a deferred
    descendant: the required part, under the id of the query, and a deferred
    part. *)
Definition requiredPart (query : Query) : Query :=
  {| getID := getID query; getName := getName query;
     isDeferred := isDeferred query; hasDeferredDescendant := false |}.

Definition deferredPart (query : Query) : Query :=
  {| getID := String.append (getID query) ".deferred";
     getName := getName query;
     isDeferred := true; hasDeferredDescendant := false |}.

(** Collaborators for the examples: a store that has nothing, so that
    diffing returns the query itself; a splitter that separates the deferred
    part of a query that has one; a network layer that supports [defer] or
    does not. *)
Definition exampleCollaborators (defer : bool) : Collaborators :=
  {| SplitQueries := list Query;
     diffRelayQuery := λ query, [query];
     splitDeferredRelayQueries := λ query,
       if hasDeferredDescendant query
       then [requiredPart query; deferredPart query] else [query];
     flattenSplitRelayQueries := λ parts, parts;
     supports := λ feature, defer && bool_decide (feature = "defer") |}.

Definition queryA : Query :=
  {| getID := "A"; getName := "ViewerQuery"; isDeferred := false;
     hasDeferredDescendant := false |}.

Definition queryB : Query :=
  {| getID := "B"; getName := "FeedQuery"; isDeferred := false;
     hasDeferredDescendant := false |}.

Definition queryD : Query :=
  {| getID := "D"; getName := "ProfileQuery"; isDeferred := false;
     hasDeferredDescendant := true |}.

Definition queryE : Query :=
  {| getID := "E"; getName := "CommentsQuery"; isDeferred := true;
     hasDeferredDescendant := false |}.

(** The fetches the registry creates for [queryA] and [queryB] when
    [forceFetch] registers them, in this order, in [initialWorld]. *)
Definition fetchA : PendingFetch :=
  {| getQuery := queryA; getFetchMode := FETCH_MODE_REFETCH;
     getForceIndex := Some 1; instance := 0 |}.

Definition fetchB : PendingFetch :=
  {| getQuery := queryB; getFetchMode := FETCH_MODE_REFETCH;
     getForceIndex := Some 1; instance := 1 |}.

Definition setAB : RelayQuerySet :=
  [("viewer", Some queryA); ("nothing", None); ("feed", Some queryB)].

Definition withDefer : Collaborators := exampleCollaborators true.

Definition withoutDefer : Collaborators := exampleCollaborators false.

(** A store that already has everything: diffing leaves nothing to fetch. *)
Definition cachedCollaborators : Collaborators :=
  {| SplitQueries := list Query;
     diffRelayQuery := λ _, [];
     splitDeferredRelayQueries := λ query, [query];
     flattenSplitRelayQueries := λ parts, parts;
     supports := λ _, true |}.

(** ** Properties of the ready-state machine *)

(** Case analysis on one call of [setReadyState]. *)
Ltac setReadyState_cases partial r :=
  unfold setReadyState, accepts;
  destruct r as [[a d e rd st] sch m mr qs fm pr aw dc hs im dl]; simpl;
  destruct a, (d || bool_decide (is_Some e)), (truthy (p_aborted partial)),
           (truthy (p_ready partial) && negb rd),
           (truthy (p_done partial) && negb d), sch; simpl; try done.

Lemma setReadyState_readyState partial r :
  readyState (after (setReadyState partial r)) =
  if accepts (readyState r) then mergeReadyState partial (readyState r)
  else readyState r.
Proof. setReadyState_cases partial r. Qed.

Lemma setReadyState_scheduled partial r :
  scheduled (after (setReadyState partial r)) =
  scheduled r || accepts (readyState r).
Proof. setReadyState_cases partial r; by rewrite orb_false_r. Qed.

Lemma setReadyState_immediates partial r :
  immediates (after (setReadyState partial r)) =
  if accepts (readyState r) && negb (scheduled r)
  then S (immediates r) else immediates r.
Proof. setReadyState_cases partial r. Qed.

Lemma setReadyState_surroundings partial r :
  surroundings (after (setReadyState partial r)) = surroundings r.
Proof. setReadyState_cases partial r. Qed.

Lemma setReadyState_rejects partial r :
  accepts (readyState r) = false →
  after (setReadyState partial r) = r.
Proof. setReadyState_cases partial r. Qed.

(** [setReadyState] throws exactly when the state is done or failed, not
    aborted, and the argument does not set [aborted]. *)
Lemma setReadyState_threw partial r :
  threw (setReadyState partial r) =
  negb (aborted (readyState r))
  && (done (readyState r) || bool_decide (is_Some (error (readyState r))))
  && negb (truthy (p_aborted partial)).
Proof. setReadyState_cases partial r. Qed.

Lemma setReadyState_control partial r :
  control (after (setReadyState partial r)) = applyPartial partial (control r).
Proof. unfold control, applyPartial. setReadyState_cases partial r. Qed.

Lemma setReadyState_tidy partial r :
  tidy r → tidy (after (setReadyState partial r)).
Proof.
  unfold tidy. rewrite setReadyState_scheduled, setReadyState_immediates.
  destruct (scheduled r), (accepts (readyState r)); simpl; lia.
Qed.

Lemma runImmediate_tidy r : tidy r → tidy (runImmediate r).
Proof.
  unfold tidy, runImmediate. destruct (immediates r) eqn:E; [congruence|].
  simpl. destruct (scheduled r); lia.
Qed.

Lemma accepts_after partial r :
  accepts (readyState (after (setReadyState partial r))) = true →
  accepts (readyState r) = true.
Proof.
  rewrite setReadyState_readyState.
  destruct (accepts (readyState r)) eqn:E; [done|congruence].
Qed.

Lemma burst_readyState partials r :
  readyState (burst partials r) = mergeAll partials (readyState r).
Proof.
  revert r. induction partials as [|p ps IH]; intros r; [done|].
  simpl. rewrite IH. by rewrite setReadyState_readyState.
Qed.

Lemma burst_delivered partials r :
  delivered (burst partials r) = delivered r.
Proof.
  revert r. induction partials as [|p ps IH]; intros r; [done|].
  simpl. rewrite IH.
  pose proof (setReadyState_surroundings p r) as E.
  unfold surroundings in E. congruence.
Qed.

Lemma burst_scheduled partials r :
  scheduled (burst partials r) =
  scheduled r || (accepts (readyState r) && bool_decide (partials ≠ [])).
Proof.
  revert r. induction partials as [|p ps IH]; intros r.
  { simpl. by rewrite andb_false_r, orb_false_r. }
  rewrite (bool_decide_eq_true_2 (p :: ps ≠ [])) by done.
  rewrite andb_true_r.
  change (burst (p :: ps) r) with (burst ps (after (setReadyState p r))).
  rewrite IH, setReadyState_scheduled.
  destruct (accepts (readyState (after (setReadyState p r)))) eqn:E1.
  - apply accepts_after in E1. rewrite E1. by destruct (scheduled r).
  - simpl. by rewrite orb_false_r.
Qed.

Lemma burst_tidy partials r : tidy r → tidy (burst partials r).
Proof.
  revert r. induction partials as [|p ps IH]; intros r Hr; [done|].
  simpl. by apply IH, setReadyState_tidy.
Qed.

Lemma mergeAll_accepted partials s :
  accepts (mergeAll partials s) = true →
  mergeAll partials s = foldl (λ s' partial, mergeReadyState partial s') s partials.
Proof.
  revert s. induction partials as [|p ps IH]; intros s; [done|].
  simpl. destruct (accepts s) eqn:E; [apply IH|].
  intros Hacc. exfalso.
  assert (∀ l, mergeAll l s = s) as Hfix.
  { induction l as [|q l IHl]; [done|]. simpl. by rewrite E. }
  specialize (Hfix ps). unfold mergeAll in Hfix, Hacc.
  rewrite Hfix in Hacc. congruence.
Qed.

Lemma mergeAll_settled partials s :
  accepts s = false → mergeAll partials s = s.
Proof.
  intros E. induction partials as [|q l IHl]; [done|]. simpl. by rewrite E.
Qed.

Lemma accepts_merge partial s :
  accepts s = true →
  accepts (mergeReadyState partial s) = negb (closes partial).
Proof.
  destruct s as [a d e rd st], partial as [pa pd pe pr ps].
  unfold accepts, closes. simpl.
  destruct a, d, e as [e|]; simpl; try done. intros _.
  destruct pa as [[]|], pd as [[]|], pe as [e|]; by vm_compute.
Qed.

Lemma lastGiven_cons {A : Type} (field : PartialReadyState → option A) p ps :
  lastGiven field (p :: ps) =
  match lastGiven field ps with Some x => Some x | None => field p end.
Proof.
  unfold lastGiven. simpl. destruct (field p).
  - rewrite last_cons. reflexivity.
  - change (list_omap _ _ field ps) with (omap field ps).
    by destruct (last (omap field ps)).
Qed.

(** The state a burst leaves on an open machine, field by field: the last
    value the updates taken give to the field, and the old value when none of
    them gives one. *)
Lemma mergeAll_fields partials s :
  accepts s = true →
  let s' := mergeAll partials s in
  aborted s' = default (aborted s) (lastGiven p_aborted (taken partials))
  ∧ done s' = default (done s) (lastGiven p_done (taken partials))
  ∧ error s' = match lastGiven p_error (taken partials) with
               | Some e => Some e
               | None => error s
               end
  ∧ ready s' = default (ready s) (lastGiven p_ready (taken partials))
  ∧ stale s' = default (stale s) (lastGiven p_stale (taken partials)).
Proof.
  revert s. induction partials as [|p ps IH]; intros s Hacc; [done|].
  cbv zeta.
  change (mergeAll (p :: ps) s)
    with (mergeAll ps (if accepts s then mergeReadyState p s else s)).
  rewrite Hacc.
  change (taken (p :: ps)) with (p :: (if closes p then [] else taken ps)).
  rewrite !lastGiven_cons.
  pose proof (accepts_merge p s Hacc) as Hm.
  destruct (closes p).
  - rewrite (mergeAll_settled ps _ Hm). unfold lastGiven. simpl.
    by destruct (p_error p).
  - destruct (IH _ Hm) as (-> & -> & -> & -> & ->). simpl.
    destruct (lastGiven p_aborted (taken ps)), (lastGiven p_done (taken ps)),
      (lastGiven p_error (taken ps)), (lastGiven p_ready (taken ps)),
      (lastGiven p_stale (taken ps)); done.
Qed.

(** ** One turn of the event loop, seen through [control] *)

#[global] Instance ReadyState_le_refl : Reflexive ReadyState_le.
Proof. intros [a d e rd st]. split; simpl; [by destruct rd|by destruct d]. Qed.

#[global] Instance ReadyState_le_trans : Transitive ReadyState_le.
Proof.
  intros [a d e rd st] [a' d' e' rd' st'] [a'' d'' e'' rd'' st''] [H1 H2] [H3 H4].
  simpl in *. split; simpl.
  - destruct rd, rd', rd''; done.
  - destruct d, d', d''; done.
Qed.

Lemma mergeReadyState_le partial s :
  accepts s = true →
  (p_ready partial = Some false → ready s = false) →
  ReadyState_le s (mergeReadyState partial s).
Proof.
  destruct s as [a d e rd st], partial as [pa pd pe pr ps].
  unfold accepts, ReadyState_le. simpl. intros Hacc Hready.
  destruct a, d; simpl in *; try done. split; [|done].
  destruct rd; [|done]. destruct pr as [[]|]; simpl; try done.
  by specialize (Hready eq_refl).
Qed.

Lemma applyPartial_settled partial c :
  accepts c.1.1.1 = false → applyPartial partial c = c.
Proof. destruct c as [[[s sch] im] dl]. simpl. by intros ->. Qed.

Lemma hasItems_false {V : Type} (m : gmap string V) :
  hasItems m = false ↔ m = ∅.
Proof.
  unfold hasItems. split.
  - intros Hlen. apply map_to_list_empty_iff.
    destruct (map_to_list m); [done|discriminate].
  - intros ->. by rewrite map_to_list_empty.
Qed.

Lemma hasItems_true {V : Type} (m : gmap string V) :
  hasItems m = true ↔ m ≠ ∅.
Proof.
  rewrite <-hasItems_false. destruct (hasItems m); split; congruence.
Qed.

Lemma everyObject_Forall {V : Type} (m : gmap string V) (f : V → bool) :
  everyObject m f = true ↔ map_Forall (λ _ v, f v = true) m.
Proof.
  unfold everyObject. rewrite forallb_forall. split.
  - intros Hall k v Hkv. apply (Hall (k, v)).
    by apply list_elem_of_In, elem_of_map_to_list.
  - intros Hall [k v] Hin. apply list_elem_of_In, elem_of_map_to_list in Hin.
    by apply Hall in Hin.
Qed.

Lemma someObject_Exists {V : Type} (m : gmap string V) (f : V → bool) :
  someObject m f = true ↔ ∃ k v, m !! k = Some v ∧ f v = true.
Proof.
  unfold someObject. rewrite existsb_exists. split.
  - intros [[k v] [Hin Hf]]. exists k, v. split; [|done].
    by apply list_elem_of_In, elem_of_map_to_list in Hin.
  - intros (k & v & Hin & Hf). exists (k, v). split; [|done].
    by apply list_elem_of_In, elem_of_map_to_list.
Qed.

Section Invocation.
Context `{Collaborators}.

Lemma registerQuery_frame mode forceIndex qs w r :
  let r' := (foldl (registerQuery mode forceIndex) (w, r) qs).2 in
  control r' = control r ∧ awaiting r' = awaiting r
  ∧ diskCacheCallbacks r' = diskCacheCallbacks r
  ∧ queries r' = queries r ∧ fetchMode r' = fetchMode r
  ∧ profilers r' = profilers r.
Proof.
  revert w r. induction qs as [|q qs IH]; intros w r; [done|].
  cbv zeta.
  change (foldl (registerQuery mode forceIndex) (w, r) (q :: qs))
    with (foldl (registerQuery mode forceIndex)
            (registerQuery mode forceIndex (w, r) q) qs).
  destruct (registerQuery mode forceIndex (w, r) q) as [w1 r1] eqn:E.
  assert (control r1 = control r ∧ awaiting r1 = awaiting r
          ∧ diskCacheCallbacks r1 = diskCacheCallbacks r
          ∧ queries r1 = queries r ∧ fetchMode r1 = fetchMode r
          ∧ profilers r1 = profilers r) as (E1 & E2 & E3 & E4 & E5 & E6).
  { unfold registerQuery in E. simpl in E.
    destruct (RelayPendingQueryTracker_add q mode forceIndex w) as [pf w'].
    by simplify_eq. }
  specialize (IH w1 r1). cbv zeta in IH.
  destruct IH as (F1 & F2 & F3 & F4 & F5 & F6).
  split_and!; congruence.
Qed.

Lemma awaitedTask_control w r :
  let r' := after (awaitedTask w r).2 in
  awaiting r' = awaiting r
  ∧ ∃ partial, control r' = applyPartial partial (control r)
      ∧ partial ∈ [doneReadyPartial; readyPartial true; readyPartial false].
Proof.
  unfold awaitedTask.
  destruct (if decide (fetchMode r = FETCH_MODE_REFETCH)
            then let '(i, w') := generateForceIndex w in (Some i, w')
            else (None, w)) as [forceIndex w1].
  set (flat := splitAndFlattenQueries (queries r)).
  pose proof (registerQuery_frame (fetchMode r) forceIndex
                (flattenedQueries flat) (warn (warned flat) w1) r) as Hframe.
  destruct (foldl (registerQuery (fetchMode r) forceIndex)
              (warn (warned flat) w1, r) (flattenedQueries flat)) as [w3 r1].
  simpl in Hframe. destruct Hframe as (Hc & Ha & Hd & _).
  simpl. destruct (hasItems (remainingFetchMap r1)); simpl.
  - destruct (hasItems (remainingRequiredFetchMap r1)); simpl.
    + pose proof (setReadyState_control (readyPartial false) r1) as Hs.
      pose proof (setReadyState_surroundings (readyPartial false) r1) as Hsur.
      unfold surroundings in Hsur. rewrite Hc in Hs.
      destruct (setReadyState (readyPartial false) r1) as [r2|msg r2];
        (split; [simpl in Hsur |- *; congruence|]);
        exists (readyPartial false); (split; [exact Hs|set_solver]).
    + pose proof (setReadyState_surroundings (readyPartial true) r1) as Hsur.
      unfold surroundings in Hsur.
      split; [congruence|]. exists (readyPartial true).
      split; [|set_solver]. by rewrite setReadyState_control, Hc.
  - pose proof (setReadyState_surroundings doneReadyPartial r1) as Hsur.
    unfold surroundings in Hsur.
    split; [congruence|]. exists doneReadyPartial.
    split; [|set_solver]. by rewrite setReadyState_control, Hc.
Qed.

Lemma onResolved_control isResolvable pendingFetch r :
  let r' := after (onResolved isResolvable pendingFetch r) in
  handlers r' = handlers r ∧ awaiting r' = awaiting r
  ∧ diskCacheCallbacks r' = diskCacheCallbacks r
  ∧ (control r' = control r
     ∨ ∃ isDone, control r' = applyPartial (resolvedPartial isDone) (control r)).
Proof.
  unfold onResolved.
  set (r1 := set_maps _ _ r).
  assert (control r1 = control r ∧ handlers r1 = handlers r
          ∧ awaiting r1 = awaiting r
          ∧ diskCacheCallbacks r1 = diskCacheCallbacks r)
    as (Hc & Hh & Ha & Hd) by done.
  clearbody r1. cbv zeta.
  destruct (hasItems (remainingRequiredFetchMap r1)); [by auto|].
  destruct (someObject (remainingFetchMap r1) isResolvable); [by auto|].
  destruct (hasItems (remainingFetchMap r1)).
  - pose proof (setReadyState_surroundings (resolvedPartial false) r1) as Hsur.
    unfold surroundings in Hsur.
    split_and!; [congruence..|]. right. exists false.
    by rewrite setReadyState_control, Hc.
  - pose proof (setReadyState_surroundings (resolvedPartial true) r1) as Hsur.
    unfold surroundings in Hsur.
    split_and!; [congruence..|]. right. exists true.
    by rewrite setReadyState_control, Hc.
Qed.

Lemma onRejected_control pendingFetch e r :
  let r' := after (onRejected pendingFetch e r) in
  handlers r' = handlers r ∧ awaiting r' = awaiting r
  ∧ diskCacheCallbacks r' = diskCacheCallbacks r
  ∧ control r' = applyPartial (errorPartial e) (control r).
Proof.
  unfold onRejected.
  pose proof (setReadyState_control (errorPartial e) r) as Hc.
  pose proof (setReadyState_surroundings (errorPartial e) r) as Hsur.
  unfold surroundings in Hsur.
  destruct (setReadyState (errorPartial e) r) as [r1|msg r1]; simpl in *;
    simplify_eq; done.
Qed.

Lemma diskCacheCallback_control check r :
  let r' := after (diskCacheCallback check r) in
  handlers r' = handlers r ∧ awaiting r' = awaiting r
  ∧ diskCacheCallbacks r' = diskCacheCallbacks r
  ∧ (control r' = control r
     ∨ control r' = applyPartial readyStalePartial (control r)).
Proof.
  unfold diskCacheCallback.
  repeat case_match; simpl; try (split_and!; [done..|by left]).
  pose proof (setReadyState_surroundings readyStalePartial r) as Hsur.
  unfold surroundings in Hsur. simplify_eq.
  split_and!; [done..|]. right. by rewrite setReadyState_control.
Qed.

(** What one turn of the event loop does to [control]: nothing, or the queued
    delivery, or one call of [setReadyState]. *)
Lemma step_control w r ev :
  let r' := (step (w, r) ev).2 in
  control r' = control r
  ∨ (ev = EvImmediate ∧ r' = runImmediate r)
  ∨ (∃ partial, Emitted r ev partial
       ∧ control r' = applyPartial partial (control r)).
Proof.
  destruct ev as [|check|pf isRes|pf e| |]; simpl.
  - destruct (awaiting r) eqn:Haw; [|by left].
    set (r0 := set_loop _ _ _ _ _ _ r).
    destruct (awaitedTask_control w r0) as (_ & partial & Hc & Hin).
    destruct (awaitedTask w r0) as [w' out]. simpl in *.
    right; right. exists partial. split; [|by rewrite Hc].
    repeat (apply elem_of_cons in Hin as [->|Hin]);
      [by constructor..|by apply elem_of_nil in Hin].
  - destruct (diskCacheCallbacks r) as [|n] eqn:Hdc; [by left|]. simpl.
    set (r0 := set_loop _ _ _ _ _ _ r).
    destruct (diskCacheCallback_control check r0) as (_ & _ & _ & [Hc|Hc]).
    + left. by rewrite Hc.
    + right; right. exists readyStalePartial. split; [constructor|by rewrite Hc].
  - destruct (fire pf (handlers r)) as [hs|]; [|by left]. simpl.
    destruct (onResolved_control isRes pf (set_handlers hs r))
      as (_ & _ & _ & [Hc|[isDone Hc]]).
    + left. by rewrite Hc.
    + right; right. exists (resolvedPartial isDone).
      split; [constructor|by rewrite Hc].
  - destruct (fire pf (handlers r)) as [hs|]; [|by left]. simpl.
    destruct (onRejected_control pf e (set_handlers hs r)) as (_ & _ & _ & Hc).
    right; right. exists (errorPartial e). split; [constructor|by rewrite Hc].
  - right; right. exists abortPartial. split; [constructor|].
    unfold abort. by rewrite setReadyState_control.
  - right; left. done.
Qed.

End Invocation.

(** ** Invariants of an invocation *)

Lemma StronglySorted_snoc {A : Type} (R : A → A → Prop) (l : list A) (x : A) :
  StronglySorted R l → Forall (λ y, R y x) l → StronglySorted R (l ++ [x]).
Proof.
  induction 1 as [|y l Hl IH Hy]; intros Hall; simpl.
  - repeat constructor.
  - apply Forall_cons in Hall as [Hyx Hall]. constructor; [by apply IH|].
    apply Forall_app. split; [done|by constructor].
Qed.

Lemma tidy_control r r' : control r' = control r → tidy r → tidy r'.
Proof. unfold control, tidy. intros [= _ Hs Hi _] Ht. by rewrite Hi, Hs. Qed.

Lemma chained_control r r' : control r' = control r → chained r → chained r'.
Proof. unfold control, chained. intros [= Hs _ _ Hd] Hc. by rewrite Hs, Hd. Qed.

Lemma tidy_applyPartial partial r r' :
  control r' = applyPartial partial (control r) → tidy r → tidy r'.
Proof.
  unfold control, applyPartial, tidy. intros Hc Hr.
  destruct (accepts (readyState r)), (scheduled r) eqn:Hsch;
    injection Hc as _ Hs Hi _; rewrite Hs, Hi; first [lia|by rewrite ?Hsch].
Qed.

Lemma chained_grow r r' :
  delivered r' = delivered r →
  ReadyState_le (readyState r) (readyState r') →
  chained r → chained r'.
Proof.
  unfold chained. intros -> Hle [Hs Hall]. split; [done|].
  eapply Forall_impl; [exact Hall|]. intros s Hs'. simpl in *.
  by transitivity (readyState r).
Qed.

Lemma runImmediate_chained r : chained r → chained (runImmediate r).
Proof.
  unfold chained, runImmediate. intros [Hs Hall].
  destruct (immediates r); [done|]. simpl. split.
  - by apply StronglySorted_snoc.
  - apply Forall_app. split; [done|]. by constructor.
Qed.

Section Invariants.
Context `{Collaborators}.

Lemma step_awaiting w r ev :
  awaiting r = false → awaiting (step (w, r) ev).2 = false.
Proof.
  intros Haw. destruct ev as [|check|pf isRes|pf e| |]; simpl.
  - by rewrite Haw.
  - destruct (diskCacheCallbacks r); [done|]. simpl.
    match goal with |- context [diskCacheCallback check ?r0] =>
      destruct (diskCacheCallback_control check r0) as (_ & -> & _) end.
    done.
  - destruct (fire pf (handlers r)) as [hs|]; [|done]. simpl.
    by destruct (onResolved_control isRes pf (set_handlers hs r))
      as (_ & -> & _).
  - destruct (fire pf (handlers r)) as [hs|]; [|done]. simpl.
    by destruct (onRejected_control pf e (set_handlers hs r))
      as (_ & -> & _).
  - pose proof (setReadyState_surroundings abortPartial r) as Hsur.
    unfold surroundings in Hsur. unfold abort. congruence.
  - unfold runImmediate. by destruct (immediates r).
Qed.

Lemma step_waiting_ok w r ev :
  waiting_ok r → waiting_ok (step (w, r) ev).2.
Proof.
  intros Hok. destruct (awaiting r) eqn:Haw.
  2:{ intros Haw'. by rewrite step_awaiting in Haw'. }
  destruct (Hok Haw) as (Hdc & Hhs & Hrd).
  destruct ev as [|check|pf isRes|pf e| |]; simpl.
  - rewrite Haw.
    match goal with |- context [awaitedTask w ?r0] =>
      destruct (awaitedTask_control w r0) as (Ha & _);
      destruct (awaitedTask w r0) as [w' out] end.
    simpl in *. intros Haw'. congruence.
  - by rewrite Hdc.
  - by rewrite Hhs.
  - by rewrite Hhs.
  - pose proof (setReadyState_surroundings abortPartial r) as Hsur.
    pose proof (setReadyState_readyState abortPartial r) as Hrs.
    unfold surroundings in Hsur. unfold abort. intros _.
    split_and!; [congruence..|]. rewrite Hrs.
    by destruct (accepts (readyState r)).
  - unfold runImmediate. destruct (immediates r); [done|]. by intros _.
Qed.

(** The three cases of [step_control], with the runner after the step as an
    opaque [r']. *)
Ltac step_cases w r ev r' :=
  let Hstep := fresh "Hstep" in
  pose proof (step_control w r ev) as Hstep; cbv zeta in Hstep;
  set (r' := (step (w, r) ev).2) in *; clearbody r';
  destruct Hstep as [Hc|[[-> ->]|(p & Hem & Hc)]].

Lemma step_le w r ev :
  waiting_ok r →
  ReadyState_le (readyState r) (readyState (step (w, r) ev).2).
Proof.
  intros Hok. step_cases w r ev r'.
  - unfold control in Hc. injection Hc as Hs _ _ _. rewrite Hs. reflexivity.
  - unfold runImmediate. destruct (immediates r); reflexivity.
  - unfold control, applyPartial in Hc.
    destruct (accepts (readyState r)) eqn:Hacc; injection Hc as Hs _ _ _;
      rewrite Hs; [|reflexivity].
    apply mergeReadyState_le; [done|]. intros Hp.
    inversion Hem; subst; try discriminate.
    by apply Hok.
Qed.

Lemma step_sound w r ev : sound r → sound (step (w, r) ev).2.
Proof.
  intros (Ht & Hok & Hch).
  pose proof (step_waiting_ok w r ev Hok) as Hok'.
  pose proof (step_le w r ev Hok) as Hle.
  step_cases w r ev r'; (split_and!; [|done|]).
  - by eapply tidy_control.
  - by eapply chained_control.
  - by apply runImmediate_tidy.
  - by apply runImmediate_chained.
  - by eapply tidy_applyPartial.
  - eapply chained_grow; [|exact Hle|done].
    unfold control, applyPartial in Hc.
    by destruct (accepts (readyState r)); injection Hc as _ _ _ Hd.
Qed.

Lemma exec_cons ev events (c : World * Runner) :
  exec (ev :: events) c = exec events (step c ev).
Proof. done. Qed.

Lemma exec_app events1 events2 (c : World * Runner) :
  exec (events1 ++ events2) c = exec events2 (exec events1 c).
Proof. unfold exec. by rewrite foldl_app. Qed.

Lemma exec_sound events w r : sound r → sound (exec events (w, r)).2.
Proof.
  revert w r. induction events as [|ev events IH]; intros w r Hr; [done|].
  rewrite exec_cons. destruct (step (w, r) ev) as [w1 r1] eqn:E.
  apply IH. by rewrite <-(f_equal snd E : (step (w, r) ev).2 = r1); apply step_sound.
Qed.

Lemma exec_le events w r :
  sound r → ReadyState_le (readyState r) (readyState (exec events (w, r)).2).
Proof.
  revert w r. induction events as [|ev events IH]; intros w r Hr; [done|].
  rewrite exec_cons. destruct (step (w, r) ev) as [w1 r1] eqn:E.
  assert ((step (w, r) ev).2 = r1) as E2 by by rewrite E.
  etrans; [|apply IH; rewrite <-E2; by apply step_sound].
  rewrite <-E2. apply step_le. apply Hr.
Qed.

Lemma runQueries_sound qs mode prof : sound (runQueries qs mode prof).
Proof.
  split_and!; [done|done|]. split; simpl; constructor.
Qed.

(** Once the state is aborted, done or failed, it is final: no event
    changes it, and the caller's callback runs at most once more, for the
    delivery that was queued when the state became final. *)
Lemma settled_exec events w r :
  tidy r → accepts (readyState r) = false →
  let r' := (exec events (w, r)).2 in
  readyState r' = readyState r
  ∧ ((delivered r' = delivered r ∧ immediates r' = immediates r)
     ∨ (immediates r = 1 ∧ immediates r' = 0
        ∧ delivered r' = delivered r ++ [readyState r])).
Proof.
  revert w r. induction events as [|ev events IH]; intros w r Ht Hacc.
  { simpl. auto. }
  cbv zeta. rewrite exec_cons.
  pose proof (step_control w r ev) as Hstep. cbv zeta in Hstep.
  destruct (step (w, r) ev) as [w1 r1].
  change ((w1, r1).2) with r1 in Hstep.
  specialize (IH w1 r1). cbv zeta in IH.
  assert (control r1 = control r ∨ r1 = runImmediate r) as [Hc| ->].
  { destruct Hstep as [Hc|[[_ Hc]|(p & _ & Hc)]]; [by left|by right|].
    left. rewrite Hc. by apply applyPartial_settled. }
  - unfold control in Hc. injection Hc as Hs Hsch Hi Hd.
    destruct IH as (IHs & IHd).
    { unfold tidy in *. by rewrite Hi, Hsch. }
    { by rewrite Hs. }
    rewrite IHs, Hs. split; [done|].
    by rewrite Hs, Hd, Hi in IHd.
  - destruct (decide (immediates r = 0)) as [Him|Him].
    { assert (runImmediate r = r) as Hid
        by (unfold runImmediate; by rewrite Him).
      rewrite Hid in *. by apply IH. }
    assert (immediates r = 1) as Hone
      by (unfold tidy in Ht; destruct (scheduled r); lia).
    assert (readyState (runImmediate r) = readyState r
            ∧ immediates (runImmediate r) = 0
            ∧ delivered (runImmediate r) = delivered r ++ [readyState r])
      as (Hs & Hi & Hd) by (unfold runImmediate; by rewrite Hone).
    destruct IH as (IHs & IHd).
    { by apply runImmediate_tidy. }
    { by rewrite Hs. }
    rewrite IHs, Hs. split; [done|]. right.
    rewrite Hs, Hd, Hi in IHd.
    destruct IHd as [[-> ->]|(? & _)]; [done|lia].
Qed.

End Invariants.

(** ** The awaited task on a fresh closure *)

Lemma hasItems_dom {V : Type} (m : gmap string V) :
  hasItems m = negb (bool_decide (dom m = ∅)).
Proof.
  destruct (hasItems m) eqn:E.
  - apply hasItems_true in E. rewrite bool_decide_eq_false_2; [done|].
    by rewrite dom_empty_iff_L.
  - apply hasItems_false in E. subst. by rewrite dom_empty_L.
Qed.

Lemma list_to_set_empty_iff (l : list string) :
  (list_to_set l : gset string) = ∅ ↔ l = [].
Proof.
  split; [|by intros ->]. destruct l as [|x l]; [done|]. simpl. set_solver.
Qed.

Lemma filter_required_nil (qs : list Query) :
  filter (λ q, isDeferred q = false) qs = [] ↔ forallb isDeferred qs = true.
Proof.
  induction qs as [|q qs IH]; [done|]. simpl.
  rewrite filter_cons. destruct (decide (isDeferred q = false)) as [E|E].
  - rewrite E. simpl. split; discriminate.
  - apply not_false_iff_true in E. rewrite E. simpl. exact IH.
Qed.

Section Registration.
Context `{Collaborators}.

Lemma registerQuery_dom mode forceIndex qs w r :
  let r' := (foldl (registerQuery mode forceIndex) (w, r) qs).2 in
  dom (remainingFetchMap r') =
    dom (remainingFetchMap r) ∪ list_to_set (getID <$> qs)
  ∧ dom (remainingRequiredFetchMap r') =
      dom (remainingRequiredFetchMap r)
      ∪ list_to_set (getID <$> filter (λ q, isDeferred q = false) qs).
Proof.
  revert w r. induction qs as [|q qs IH]; intros w r.
  { simpl. split; set_solver. }
  cbv zeta.
  change (foldl (registerQuery mode forceIndex) (w, r) (q :: qs))
    with (foldl (registerQuery mode forceIndex)
            (registerQuery mode forceIndex (w, r) q) qs).
  destruct (registerQuery mode forceIndex (w, r) q) as [w1 r1] eqn:E.
  specialize (IH w1 r1). cbv zeta in IH. destruct IH as [-> ->].
  unfold registerQuery in E. simpl in E.
  destruct (RelayPendingQueryTracker_add q mode forceIndex w) as [pf w'].
  injection E as _ <-. simpl. rewrite filter_cons.
  destruct (decide (isDeferred q = false)) as [Hq|Hq].
  - rewrite Hq. simpl. rewrite !dom_insert_L. split; set_solver.
  - apply not_false_iff_true in Hq. rewrite Hq. simpl.
    rewrite dom_insert_L. split; set_solver.
Qed.

Lemma awaitedTask_fresh w r :
  fresh r →
  let flat := flattenedQueries (splitAndFlattenQueries (queries r)) in
  let r' := after (awaitedTask w r).2 in
  control r' = (firstReadyState flat, true, 1, [])
  ∧ diskCacheCallbacks r' = (if forallb isDeferred flat then 0 else 1)
  ∧ dom (remainingFetchMap r') = list_to_set (getID <$> flat)
  ∧ dom (remainingRequiredFetchMap r') =
      list_to_set (getID <$> filter (λ q, isDeferred q = false) flat)
  ∧ threw (awaitedTask w r).2 = false.
Proof.
  intros (Hc & Hm & Hmr & Hdc) flat r'. subst r'. unfold awaitedTask.
  destruct (if decide (fetchMode r = FETCH_MODE_REFETCH)
            then let '(i, w') := generateForceIndex w in (Some i, w')
            else (None, w)) as [forceIndex w1].
  fold flat.
  pose proof (registerQuery_frame (fetchMode r) forceIndex flat
                (warn (warned (splitAndFlattenQueries (queries r))) w1) r)
    as Hframe.
  pose proof (registerQuery_dom (fetchMode r) forceIndex flat
                (warn (warned (splitAndFlattenQueries (queries r))) w1) r)
    as Hdom.
  destruct (foldl (registerQuery (fetchMode r) forceIndex)
              (warn (warned (splitAndFlattenQueries (queries r))) w1, r) flat)
    as [w3 r1].
  cbv zeta in Hframe, Hdom. change ((w3, r1).2) with r1 in *.
  destruct Hframe as (Hc1 & _ & Hdc1 & _). destruct Hdom as [Hd1 Hd2].
  rewrite Hm, dom_empty_L, (left_id_L ∅ (∪)) in Hd1.
  rewrite Hmr, dom_empty_L, (left_id_L ∅ (∪)) in Hd2.
  rewrite Hc in Hc1. unfold control in Hc1. injection Hc1 as Hs Hsch Him Hdl.
  assert (accepts (readyState r1) = true) as Hacc by by rewrite Hs.
  change ((w3, ?x).2) with x.
  assert (hasItems (remainingFetchMap r1) = negb (bool_decide (flat = [])))
    as ->.
  { rewrite hasItems_dom, Hd1. f_equal. apply bool_decide_ext.
    rewrite list_to_set_empty_iff. split; [apply fmap_nil_inv|by intros ->]. }
  assert (hasItems (remainingRequiredFetchMap r1)
          = negb (forallb isDeferred flat)) as ->.
  { rewrite hasItems_dom, Hd2. f_equal.
    destruct (forallb isDeferred flat) eqn:Hall.
    - apply bool_decide_eq_true_2, list_to_set_empty_iff.
      apply filter_required_nil in Hall. by rewrite Hall.
    - apply bool_decide_eq_false_2. rewrite list_to_set_empty_iff.
      intros Hnil%fmap_nil_inv. apply filter_required_nil in Hnil.
      congruence. }
  rewrite !negb_involutive. clearbody flat.
  destruct flat as [|q flat'].
  { rewrite bool_decide_eq_true_2 by done.
    pose proof (setReadyState_control doneReadyPartial r1) as Hctl.
    pose proof (setReadyState_surroundings doneReadyPartial r1) as Hsur.
    pose proof (setReadyState_threw doneReadyPartial r1) as Hthr.
    unfold control, applyPartial, surroundings in *.
    rewrite Hacc, Hs, Hsch, Him, Hdl in Hctl. rewrite Hs in Hthr.
    injection Hsur as Hs1 Hs2 _ _ _ Hs6 _ _.
    split_and!; [exact Hctl|simpl; congruence|congruence|congruence|exact Hthr]. }
  rewrite bool_decide_eq_false_2 by done.
  unfold firstReadyState.
  destruct (forallb isDeferred (q :: flat')) eqn:Hall.
  - pose proof (setReadyState_control (readyPartial true) r1) as Hctl.
    pose proof (setReadyState_surroundings (readyPartial true) r1) as Hsur.
    pose proof (setReadyState_threw (readyPartial true) r1) as Hthr.
    unfold control, applyPartial, surroundings in *.
    rewrite Hacc, Hs, Hsch, Him, Hdl in Hctl. rewrite Hs in Hthr.
    injection Hsur as Hs1 Hs2 _ _ _ Hs6 _ _.
    split_and!; [exact Hctl|congruence|congruence|congruence|exact Hthr].
  - pose proof (setReadyState_control (readyPartial false) r1) as Hctl.
    pose proof (setReadyState_surroundings (readyPartial false) r1) as Hsur.
    pose proof (setReadyState_threw (readyPartial false) r1) as Hthr.
    unfold control, applyPartial, surroundings in *.
    rewrite Hacc, Hs, Hsch, Him, Hdl in Hctl. rewrite Hs in Hthr.
    injection Hsur as Hs1 Hs2 _ _ _ Hs6 _ _.
    destruct (setReadyState (readyPartial false) r1) as [r2|msg r2];
      [|discriminate].
    split_and!; [exact Hctl|simpl in *; congruence|simpl in *; congruence..|done].
Qed.

Lemma step_await w r :
  awaiting r = true →
  (step (w, r) EvAwait).2 =
  after (awaitedTask w (set_loop (scheduled r) false (diskCacheCallbacks r)
                          (handlers r) (immediates r) (delivered r) r)).2.
Proof.
  intros Haw. unfold step. rewrite Haw.
  by destruct (awaitedTask w _) as [w' out].
Qed.

(** The disk-cache callback run right after the awaited task. *)
Lemma step_diskCache_first w r check :
  control r = (initialReadyState, true, 1, []) →
  diskCacheCallbacks r = 1 →
  remainingRequiredFetchMap r ≠ ∅ →
  control (step (w, r) (EvDiskCache check)).2 =
  (if everyObject (remainingRequiredFetchMap r) (canResolve check)
   then readyStaleState else initialReadyState, true, 1, []).
Proof.
  intros Hc Hdc Hne. unfold step. rewrite Hdc.
  set (r0 := set_loop _ _ _ _ _ _ r).
  assert (control r0 = control r) as Hc0 by done.
  assert (remainingRequiredFetchMap r0 = remainingRequiredFetchMap r)
    as Hm by done.
  clearbody r0. change ((w, ?x).2) with x. unfold diskCacheCallback.
  rewrite Hm. apply hasItems_true in Hne. rewrite Hne.
  destruct (everyObject (remainingRequiredFetchMap r) (canResolve check)).
  - rewrite setReadyState_control, Hc0, Hc. done.
  - simpl. by rewrite Hc0.
Qed.

(** The awaited task on a fresh closure, followed by the disk-cache
    callback. *)
Lemma await_diskCache_control w r check :
  awaiting r = true → fresh r →
  let flat := flattenedQueries (splitAndFlattenQueries (queries r)) in
  let c1 := step (w, r) EvAwait in
  let c2 := step c1 (EvDiskCache check) in
  control c1.2 = (firstReadyState flat, true, 1, [])
  ∧ control c2.2 =
      (if negb (forallb isDeferred flat)
          && everyObject (remainingRequiredFetchMap c1.2) (canResolve check)
       then readyStaleState else firstReadyState flat, true, 1, []).
Proof.
  intros Haw Hfresh flat c1 c2.
  assert (control c1.2 = (firstReadyState flat, true, 1, [])
          ∧ diskCacheCallbacks c1.2 = (if forallb isDeferred flat then 0 else 1)
          ∧ dom (remainingRequiredFetchMap c1.2) =
              list_to_set (getID <$> filter (λ q, isDeferred q = false) flat))
    as (Hc1 & Hdc1 & Hdom1).
  { subst c1. rewrite step_await by done.
    set (r' := set_loop _ _ _ _ _ _ r).
    assert (fresh r') as Hfresh' by apply Hfresh.
    destruct (awaitedTask_fresh w r' Hfresh') as (? & ? & _ & ? & _).
    done. }
  split; [done|].
  subst c2. destruct c1 as [w1 r1]. change ((w1, r1).2) with r1 in *.
  destruct (forallb isDeferred flat) eqn:Hall.
  - unfold step. rewrite Hdc1. done.
  - assert (firstReadyState flat = initialReadyState) as Hfirst.
    { unfold firstReadyState. destruct flat; [done|]. by rewrite Hall. }
    rewrite Hfirst in *.
    rewrite (step_diskCache_first w1 r1 check); [done..|].
    intros Hempty. rewrite Hempty, dom_empty_L in Hdom1.
    symmetry in Hdom1. apply list_to_set_empty_iff, fmap_nil_inv in Hdom1.
    apply filter_required_nil in Hdom1. congruence.
Qed.

Lemma step_await_pair w r :
  awaiting r = true →
  step (w, r) EvAwait =
  let c := awaitedTask w (set_loop (scheduled r) false (diskCacheCallbacks r)
                            (handlers r) (immediates r) (delivered r) r) in
  (c.1, after c.2).
Proof.
  intros Haw. unfold step. rewrite Haw.
  by destruct (awaitedTask w _) as [w' out].
Qed.

Lemma step_world w r ev :
  awaiting r = false → (step (w, r) ev).1 = w.
Proof.
  intros Haw. destruct ev; simpl; rewrite ?Haw; try done.
  - by destruct (diskCacheCallbacks r).
  - by destruct (fire _ _).
  - by destruct (fire _ _).
Qed.

End Registration.

(** ** The pending-fetch registry during registration *)

Lemma issuedFor_snoc queryID w w' x :
  issued w' = issued w ++ [x] →
  issuedFor queryID w' =
  (if decide (x = queryID) then S (issuedFor queryID w) else issuedFor queryID w).
Proof.
  unfold issuedFor. intros ->. rewrite filter_app, length_app.
  rewrite filter_cons, filter_nil. case_decide; simpl; lia.
Qed.

Lemma add_addedWith query mode forceIndex queryID w :
  addedWith mode forceIndex queryID w
    (RelayPendingQueryTracker_add query mode forceIndex w).2.
Proof.
  unfold addedWith, RelayPendingQueryTracker_add.
  destruct (registry w !! getID query) as [pf0|] eqn:Hq; simpl.
  { destruct (registry w !! queryID); auto. }
  destruct (decide (getID query = queryID)) as [<-|Hne].
  - rewrite Hq. right. eexists. rewrite lookup_insert_eq.
    split_and!; [done..|].
    erewrite issuedFor_snoc; [|done]. by rewrite decide_True.
  - rewrite lookup_insert_ne by done.
    assert (issuedFor queryID
              {| registry := <[getID query:=
                    {| getQuery := query; getFetchMode := mode;
                       getForceIndex := forceIndex;
                       instance := nextInstance w |}]> (registry w);
                 nextInstance := S (nextInstance w);
                 issued := issued w ++ [getID query];
                 forceIndexCounter := forceIndexCounter w;
                 warnings := warnings w |} = issuedFor queryID w) as ->.
    { erewrite issuedFor_snoc; [|done]. by rewrite decide_False. }
    destruct (registry w !! queryID); auto.
Qed.

Lemma addedWith_refl mode forceIndex queryID w :
  addedWith mode forceIndex queryID w w.
Proof. unfold addedWith. destruct (registry w !! queryID); auto. Qed.

Lemma addedWith_trans mode forceIndex queryID w1 w2 w3 :
  addedWith mode forceIndex queryID w1 w2 →
  addedWith mode forceIndex queryID w2 w3 →
  addedWith mode forceIndex queryID w1 w3.
Proof.
  unfold addedWith.
  destruct (registry w1 !! queryID) as [pf1|].
  - intros [-> ->]. done.
  - intros [[-> ->]|(pf & -> & ? & ? & ? & ->)]; [done|].
    intros [-> ->]. right. by exists pf.
Qed.

Section Registry.
Context `{Collaborators}.

Lemma registerQuery_agree mode forceIndex w r query :
  agree (getID query) (registerQuery mode forceIndex (w, r) query).
Proof.
  unfold agree, registerQuery, RelayPendingQueryTracker_add. simpl.
  destruct (registry w !! getID query) as [pf0|] eqn:Hq; simpl.
  - rewrite lookup_insert_eq, Hq. eauto.
  - rewrite !lookup_insert_eq. eauto.
Qed.

Lemma registerQuery_keeps mode forceIndex w r query queryID :
  agree queryID (w, r) →
  agree queryID (registerQuery mode forceIndex (w, r) query).
Proof.
  unfold agree, registerQuery, RelayPendingQueryTracker_add. simpl.
  intros [[pf Hpf] Heq]. rewrite Hpf in Heq.
  destruct (decide (getID query = queryID)) as [<-|Hne].
  - rewrite Hpf. simpl. rewrite lookup_insert_eq, Hpf. eauto.
  - destruct (registry w !! getID query) as [pf0|]; simpl;
      rewrite ?lookup_insert_ne by done; rewrite Hpf; eauto.
Qed.

Lemma registerQuery_keeps_all mode forceIndex qs w r queryID :
  agree queryID (w, r) →
  agree queryID (foldl (registerQuery mode forceIndex) (w, r) qs).
Proof.
  revert w r. induction qs as [|q qs IH]; intros w r Hag; [done|].
  change (foldl (registerQuery mode forceIndex) (w, r) (q :: qs))
    with (foldl (registerQuery mode forceIndex)
            (registerQuery mode forceIndex (w, r) q) qs).
  pose proof (registerQuery_keeps mode forceIndex w r q _ Hag) as Hq.
  destruct (registerQuery mode forceIndex (w, r) q) as [w1 r1].
  by apply IH.
Qed.

Lemma registerQuery_world mode forceIndex qs w r :
  let c := foldl (registerQuery mode forceIndex) (w, r) qs in
  sameCounters w c.1
  ∧ (∀ queryID, addedWith mode forceIndex queryID w c.1)
  ∧ (∀ query, query ∈ qs → agree (getID query) c).
Proof.
  revert w r. induction qs as [|q qs IH]; intros w r.
  { simpl. split_and!; [done| |].
    - intros. apply addedWith_refl.
    - intros query Hin. by apply elem_of_nil in Hin. }
  cbv zeta.
  change (foldl (registerQuery mode forceIndex) (w, r) (q :: qs))
    with (foldl (registerQuery mode forceIndex)
            (registerQuery mode forceIndex (w, r) q) qs).
  pose proof (registerQuery_agree mode forceIndex w r q) as Hq.
  assert (sameCounters w (registerQuery mode forceIndex (w, r) q).1
          ∧ ∀ queryID, addedWith mode forceIndex queryID w
                         (registerQuery mode forceIndex (w, r) q).1)
    as [Hsame Hadd].
  { split.
    - unfold registerQuery, RelayPendingQueryTracker_add. simpl.
      by destruct (registry w !! getID q).
    - intros queryID.
      pose proof (add_addedWith q mode forceIndex queryID w) as Ha.
      unfold registerQuery. simpl.
      by destruct (RelayPendingQueryTracker_add q mode forceIndex w). }
  destruct (registerQuery mode forceIndex (w, r) q) as [w1 r1].
  specialize (IH w1 r1). cbv zeta in IH. destruct IH as (Hs & Ha & Hag).
  simpl in Hsame, Hadd. split_and!.
  - destruct Hsame, Hs. split; congruence.
  - intros queryID. eapply addedWith_trans; [apply Hadd|apply Ha].
  - intros query [->|Hin]%elem_of_cons; [|by apply Hag].
    by apply registerQuery_keeps_all.
Qed.

Lemma awaitedTask_world w r :
  let c := awaitedTask w r in
  let flat := flattenedQueries (splitAndFlattenQueries (queries r)) in
  forceIndexCounter c.1 =
    (if decide (fetchMode r = FETCH_MODE_REFETCH)
     then S (forceIndexCounter w) else forceIndexCounter w)
  ∧ (∀ queryID, addedWith (fetchMode r) (taskForceIndex w r) queryID w c.1)
  ∧ (∀ query, query ∈ flat → agree (getID query) (c.1, after c.2)).
Proof.
  unfold awaitedTask, taskForceIndex.
  set (flat := splitAndFlattenQueries (queries r)).
  set (w1 := if decide (fetchMode r = FETCH_MODE_REFETCH)
             then (generateForceIndex w).2 else w).
  set (fi := if decide (fetchMode r = FETCH_MODE_REFETCH)
             then Some (forceIndexCounter w) else None).
  assert ((if decide (fetchMode r = FETCH_MODE_REFETCH)
           then let '(i, w') := generateForceIndex w in (Some i, w')
           else (None, w)) = (fi, w1)) as ->.
  { subst fi w1. by case_decide. }
  pose proof (registerQuery_world (fetchMode r) fi (flattenedQueries flat)
                (warn (warned flat) w1) r) as Hw.
  destruct (foldl (registerQuery (fetchMode r) fi) (warn (warned flat) w1, r)
              (flattenedQueries flat)) as [w3 r1].
  cbv zeta in Hw. destruct Hw as ([Hfc _] & Hadd & Hag). simpl in Hfc, Hadd.
  cbv zeta. change ((w3, ?x).1) with w3. change ((w3, ?x).2) with x.
  assert (∀ out, remainingFetchMap (after out) = remainingFetchMap r1 →
            ∀ query, query ∈ flattenedQueries flat →
              agree (getID query) (w3, after out)) as Hkeep.
  { intros out Hm query Hin. specialize (Hag query Hin).
    unfold agree in *. simpl in *. by rewrite Hm. }
  assert (∀ partial,
            remainingFetchMap (after (setReadyState partial r1))
            = remainingFetchMap r1) as Hmap.
  { intros partial.
    pose proof (setReadyState_surroundings partial r1) as Hsur.
    unfold surroundings in Hsur. by injection Hsur as -> _ _ _ _ _ _ _. }
  split_and!.
  - rewrite Hfc. subst w1. by case_decide.
  - intros queryID. specialize (Hadd queryID).
    assert (registry (warn (warned flat) w1) = registry w
            ∧ issuedFor queryID (warn (warned flat) w1) = issuedFor queryID w)
      as [Hreg Hiss] by (subst w1; by case_decide).
    unfold addedWith in *. by rewrite Hreg, Hiss in Hadd.
  - apply Hkeep.
    destruct (hasItems (remainingFetchMap r1)); simpl; [|apply Hmap].
    destruct (hasItems (remainingRequiredFetchMap r1)); simpl; [|apply Hmap].
    specialize (Hmap (readyPartial false)).
    by destruct (setReadyState (readyPartial false) r1) as [r2|msg r2].
Qed.

End Registry.

(** ** Theorems *)

Section Claims.
Context `{Collaborators}.

Lemma invocation_sound viaForceFetch querySet mode :
  sound (invocation viaForceFetch querySet mode).
Proof. destruct viaForceFetch; apply runQueries_sound. Qed.

Lemma invocation_fresh viaForceFetch querySet mode :
  awaiting (invocation viaForceFetch querySet mode) = true
  ∧ fresh (invocation viaForceFetch querySet mode).
Proof. by destruct viaForceFetch. Qed.

(** C1.  For every invocation of [run] or [forceFetch] and every sequence of
    events of the event loop (the awaited task, the disk-cache callback,
    fetches resolving or rejecting, [abort], queued deliveries), in any
    order: [ready] and [done] never go from true to false, neither in the
    stored state from one moment ([events1]) to a later one
    ([events1 ++ events2]) nor across the states delivered to the callback;
    and once [aborted] is true the state never changes again and the
    callback runs at most once more, for the delivery of the aborted state
    that was queued, and never after that delivery, whatever the fetches do
    later. *)
Theorem ready_done_monotone_abort_final viaForceFetch querySet mode w
    events1 events2 :
  let r1 := (exec events1 (w, invocation viaForceFetch querySet mode)).2 in
  let r2 :=
    (exec (events1 ++ events2) (w, invocation viaForceFetch querySet mode)).2 in
  ReadyState_le (readyState r1) (readyState r2)
  ∧ StronglySorted ReadyState_le (delivered r2)
  ∧ (aborted (readyState r1) = true →
     readyState r2 = readyState r1
     ∧ (delivered r2 = delivered r1 ∧ immediates r2 = immediates r1
        ∨ immediates r1 = 1 ∧ immediates r2 = 0
          ∧ delivered r2 = delivered r1 ++ [readyState r1])).
Proof.
  intros r1 r2. subst r1 r2. rewrite exec_app.
  pose proof (invocation_sound viaForceFetch querySet mode) as Hsound.
  destruct (exec events1 (w, invocation viaForceFetch querySet mode))
    as [w1 r1] eqn:E1.
  assert (sound r1) as Hr1.
  { pose proof (exec_sound events1 w _ Hsound) as Hs. by rewrite E1 in Hs. }
  simpl. split_and!.
  - by apply exec_le.
  - pose proof (exec_sound events2 w1 r1 Hr1) as (_ & _ & Hch & _). done.
  - intros Hab. apply settled_exec; [apply Hr1|].
    unfold accepts. by rewrite Hab.
Qed.

(** C2.  Within one invocation, at any moment, a burst of calls of
    [setReadyState] with no turn of the event loop in between results in one
    delivery: the callback is not called during the burst, the queue holds
    exactly one delivery afterwards if one was already scheduled or if the
    burst changed the state (and none otherwise), a delivery that was already
    scheduled is not scheduled a second time, and when the queued delivery
    runs the callback receives, once, the state the burst has left, after
    which nothing is queued.  That state reflects every update: each of its
    fields holds the last value that the updates give to the field, and the
    value from before the burst when no update gives one; the updates that
    count are all those made until the state is done, failed or aborted. *)
Theorem burst_coalesced viaForceFetch querySet mode w events partials :
  let r := (exec events (w, invocation viaForceFetch querySet mode)).2 in
  let r' := burst partials r in
  let s := readyState r in
  let s' := readyState r' in
  let merged := if accepts s then taken partials else [] in
  let fires := scheduled r || (accepts s && bool_decide (partials ≠ [])) in
  aborted s' = default (aborted s) (lastGiven p_aborted merged)
  ∧ done s' = default (done s) (lastGiven p_done merged)
  ∧ error s' = match lastGiven p_error merged with
               | Some e => Some e
               | None => error s
               end
  ∧ ready s' = default (ready s) (lastGiven p_ready merged)
  ∧ stale s' = default (stale s) (lastGiven p_stale merged)
  ∧ delivered r' = delivered r
  ∧ scheduled r' = fires
  ∧ immediates r' = (if fires then 1 else 0)
  ∧ delivered (runImmediate r') = delivered r ++ (if fires then [s'] else [])
  ∧ immediates (runImmediate r') = 0
  ∧ scheduled (runImmediate r') = false.
Proof.
  intros r r' s s' merged fires.
  assert (tidy r') as Ht.
  { apply burst_tidy, exec_sound, invocation_sound. }
  assert (scheduled r' = fires) as Hsch by apply burst_scheduled.
  assert (immediates r' = if fires then 1 else 0) as Him.
  { unfold tidy in Ht. by rewrite <-Hsch. }
  assert (delivered r' = delivered r) as Hd by apply burst_delivered.
  assert (s' = mergeAll partials s) as Hs' by apply burst_readyState.
  repeat match goal with |- _ = _ ∧ _ => split end.
  1-5: rewrite Hs'; subst merged; destruct (accepts s) eqn:Hacc;
    [by apply mergeAll_fields|by rewrite mergeAll_settled].
  - done.
  - done.
  - done.
  - unfold runImmediate. rewrite Him. destruct fires; simpl.
    + by rewrite Hd.
    + by rewrite Hd, app_nil_r.
  - unfold runImmediate. rewrite Him. by destruct fires.
  - unfold runImmediate. rewrite Him. by destruct fires.
Qed.

(** C3.  After the awaited task of an invocation has run on the closure
    [runQueries] created, the state is the first readiness state of the
    split and flattened query list: done and ready when the list is empty,
    ready when every query in it is deferred, not ready otherwise; one
    delivery is queued and the callback has not been called.  In the last
    case the disk-cache callback, run next, makes the state ready and stale
    exactly when every fetch in the remaining-required map can be resolved,
    and the queued delivery then carries that state.  For the empty query
    set the state stays done whatever happens next, and the callback is
    called exactly once, with the state done, when the queued delivery
    runs. *)
Theorem first_readiness viaForceFetch querySet mode w check :
  let r0 := invocation viaForceFetch querySet mode in
  let flat := flattenedQueries (splitAndFlattenQueries (queries r0)) in
  let c1 := step (w, r0) EvAwait in
  let c2 := step c1 (EvDiskCache check) in
  control c1.2 = (firstReadyState flat, true, 1, [])
  ∧ control c2.2 =
      (if negb (forallb isDeferred flat)
          && everyObject (remainingRequiredFetchMap c1.2) (canResolve check)
       then readyStaleState else firstReadyState flat, true, 1, [])
  ∧ delivered (step c2 EvImmediate).2 = [readyState c2.2]
  ∧ (∀ events,
       let r := (exec events (step (w, run [] mode) EvAwait)).2 in
       readyState r = doneReadyState
       ∧ (delivered r = [] ∧ immediates r = 1
          ∨ delivered r = [doneReadyState] ∧ immediates r = 0)).
Proof.
  intros r0 flat c1 c2.
  destruct (invocation_fresh viaForceFetch querySet mode) as [Haw0 Hfresh0].
  destruct (await_diskCache_control w r0 check Haw0 Hfresh0) as [Hc1 Hc2].
  fold flat c1 in Hc1, Hc2. fold c2 in Hc2.
  split_and!; [done|done| |].
  - destruct c2 as [w2 r2]. unfold control in Hc2. simpl in Hc2 |- *.
    injection Hc2 as Hs _ Him Hdl. unfold runImmediate. rewrite Him. simpl.
    by rewrite Hdl.
  - intros events r. subst r.
    destruct (invocation_fresh false [] mode) as [Haw Hfresh].
    change (invocation false [] mode) with (run [] mode) in Haw, Hfresh.
    assert (queries (run [] mode) = []) as Hqs.
    { unfold run. by repeat case_decide. }
    destruct (await_diskCache_control w _ check Haw Hfresh) as (Hc & _).
    rewrite Hqs in Hc.
    assert (flattenedQueries (splitAndFlattenQueries []) = []) as Hflat.
    { unfold splitAndFlattenQueries. by destruct (supports "defer"). }
    rewrite Hflat in Hc.
    destruct (step (w, run [] mode) EvAwait) as [w1 r1].
    unfold control in Hc. simpl in Hc. injection Hc as Hs Hsch Him Hdl.
    destruct (settled_exec events w1 r1) as (Hrs & Hdel).
    { unfold tidy. by rewrite Him, Hsch. }
    { by rewrite Hs. }
    rewrite Hrs, Hs. split; [done|].
    rewrite Hdl, Him, Hs in Hdel.
    destruct Hdel as [[-> ->]|(_ & -> & ->)]; auto.
Qed.

(** C4.  When a pending fetch resolves, [onResolved] deletes its query id
    from the remaining map, and from the remaining-required map exactly when
    its query is not deferred.  It then calls [setReadyState] exactly when the
    remaining-required map is empty and no fetch left in the remaining map
    reports itself resolvable ([someObject], see [someObject_Exists]); the
    argument is [{done: false, ready: true, stale: false}] when the remaining
    map is not empty and [{done: true, ready: true, stale: false}] when it is.
    On a state that accepts updates the stored state becomes exactly that. *)
Theorem onResolved_emits isResolvable pendingFetch r :
  let query := getQuery pendingFetch in
  let m' := delete (getID query) (remainingFetchMap r) in
  let mr' := if isDeferred query then remainingRequiredFetchMap r
             else delete (getID query) (remainingRequiredFetchMap r) in
  let emits := bool_decide (mr' = ∅) && negb (someObject m' isResolvable) in
  let isDone := bool_decide (m' = ∅) in
  let out := onResolved isResolvable pendingFetch r in
  remainingFetchMap (after out) = m'
  ∧ remainingRequiredFetchMap (after out) = mr'
  ∧ out = (if emits then setReadyState (resolvedPartial isDone) (set_maps m' mr' r)
           else Returns (set_maps m' mr' r))
  ∧ readyState (after out) =
      (if emits && accepts (readyState r)
       then {| aborted := false; done := isDone; error := None; ready := true;
               stale := false |}
       else readyState r).
Proof.
  intros query m' mr' emits isDone out.
  assert (out = if emits then setReadyState (resolvedPartial isDone)
                               (set_maps m' mr' r)
                else Returns (set_maps m' mr' r)) as Hout.
  { subst out. unfold onResolved. fold query.
    assert ((if negb (isDeferred query)
             then delete (getID query) (remainingRequiredFetchMap r)
             else remainingRequiredFetchMap r) = mr') as ->
      by (subst mr'; by destruct (isDeferred query)).
    fold m'. cbv zeta.
    change (remainingRequiredFetchMap (set_maps m' mr' r)) with mr'.
    change (remainingFetchMap (set_maps m' mr' r)) with m'.
    subst emits isDone. rewrite !hasItems_dom.
    destruct (decide (mr' = ∅)) as [Hmr|Hmr].
    - rewrite (bool_decide_eq_true_2 (dom mr' = ∅)) by by rewrite Hmr, dom_empty_L.
      rewrite (bool_decide_eq_true_2 (mr' = ∅)) by done. simpl.
      destruct (someObject m' isResolvable); [done|]. simpl.
      destruct (decide (m' = ∅)) as [Hm|Hm].
      + rewrite (bool_decide_eq_true_2 (dom m' = ∅)) by by rewrite Hm, dom_empty_L.
        by rewrite (bool_decide_eq_true_2 (m' = ∅)).
      + rewrite (bool_decide_eq_false_2 (dom m' = ∅)) by by rewrite dom_empty_iff_L.
        by rewrite (bool_decide_eq_false_2 (m' = ∅)).
    - rewrite (bool_decide_eq_false_2 (dom mr' = ∅)) by by rewrite dom_empty_iff_L.
      by rewrite (bool_decide_eq_false_2 (mr' = ∅)). }
  assert (surroundings (after out) = surroundings (set_maps m' mr' r)
          ∧ readyState (after out) =
              if emits && accepts (readyState r)
              then mergeReadyState (resolvedPartial isDone) (readyState r)
              else readyState r) as [Hsur Hrs].
  { rewrite Hout. destruct emits; [|done].
    by rewrite setReadyState_surroundings, setReadyState_readyState. }
  unfold surroundings in Hsur. injection Hsur as Hm Hmr _ _ _ _ _ _.
  split_and!; [done..|]. rewrite Hrs.
  destruct emits; [|done]. simpl.
  destruct (accepts (readyState r)) eqn:Hacc; [|done].
  unfold accepts in Hacc. destruct (readyState r) as [a d e rd st].
  simpl in *. destruct a, d, e; simpl in *; try discriminate. done.
Qed.

(** X12.  If a pending fetch rejects while the state of the
    invocation is neither aborted, nor done, nor failed, [onRejected] returns,
    the state takes the error and changes in nothing else, and the query id is
    deleted from the remaining map and, when the query is not deferred, from
    the remaining-required map.  This is terminal: whatever happens next
    (other fetches resolving or rejecting, [abort]) the state stays as it is,
    and the callback is called exactly once more, with that state, when the
    queued delivery runs. *)
Theorem rejection_terminal viaForceFetch querySet mode w events
    pendingFetch e later :
  let c := exec events (w, invocation viaForceFetch querySet mode) in
  let query := getQuery pendingFetch in
  let out := onRejected pendingFetch e c.2 in
  let failed :=
    {| aborted := false; done := false; error := Some e;
       ready := ready (readyState c.2); stale := stale (readyState c.2) |} in
  accepts (readyState c.2) = true →
  threw out = false
  ∧ readyState (after out) = failed
  ∧ remainingFetchMap (after out) = delete (getID query) (remainingFetchMap c.2)
  ∧ remainingRequiredFetchMap (after out) =
      (if isDeferred query then remainingRequiredFetchMap c.2
       else delete (getID query) (remainingRequiredFetchMap c.2))
  ∧ delivered (after out) = delivered c.2
  ∧ let r' := (exec later (c.1, after out)).2 in
    readyState r' = failed
    ∧ (delivered r' = delivered c.2 ∧ immediates r' = 1
       ∨ delivered r' = delivered c.2 ++ [failed] ∧ immediates r' = 0).
Proof.
  intros c query out failed Hacc.
  assert (sound c.2) as (Ht & _) by apply exec_sound, invocation_sound.
  destruct c as [w1 r]. simpl in *.
  pose proof (setReadyState_readyState (errorPartial e) r) as Hrs.
  pose proof (setReadyState_surroundings (errorPartial e) r) as Hsur.
  pose proof (setReadyState_threw (errorPartial e) r) as Hthr.
  pose proof (setReadyState_tidy (errorPartial e) r Ht) as Ht'.
  pose proof (setReadyState_scheduled (errorPartial e) r) as Hsch.
  rewrite Hacc in Hrs. rewrite Hacc, orb_true_r in Hsch.
  assert (mergeReadyState (errorPartial e) (readyState r) = failed) as Hfailed.
  { subst failed. unfold accepts in Hacc.
    destruct (readyState r) as [a d e0 rd st]. simpl in *.
    destruct a, d; try discriminate. done. }
  rewrite Hfailed in Hrs.
  assert (negb (aborted (readyState r))
          && (done (readyState r) || bool_decide (is_Some (error (readyState r))))
          = false) as Hno.
  { unfold accepts in Hacc.
    destruct (aborted (readyState r)); [done|]. simpl in *.
    by destruct (done (readyState r) || _). }
  rewrite Hno in Hthr. simpl in Hthr.
  subst out. unfold onRejected.
  destruct (setReadyState (errorPartial e) r) as [r1|msg r1]; [|discriminate].
  simpl in Hrs, Hsur, Ht', Hsch |- *. unfold surroundings in Hsur.
  injection Hsur as Hm Hmr _ _ _ _ _ Hdl.
  fold query.
  split; [done|]. split; [done|]. split; [by rewrite Hm|].
  split; [rewrite Hmr; by destruct (isDeferred query)|].
  split; [done|]. cbv zeta.
  set (r2 := set_maps _ _ r1).
  destruct (settled_exec later w1 r2) as (Hrs2 & Hdel).
  { exact Ht'. }
  { change (readyState r2) with (readyState r1). by rewrite Hrs. }
  change (readyState r2) with (readyState r1) in *.
  change (delivered r2) with (delivered r1) in *.
  change (immediates r2) with (immediates r1) in *.
  assert (immediates r1 = 1) as Hone by (unfold tidy in Ht'; by rewrite Hsch in Ht').
  rewrite Hrs2, Hrs. split; [done|].
  rewrite Hdl, Hone, Hrs in Hdel.
  destruct Hdel as [[-> ->]|(_ & -> & ->)]; auto.
Qed.

(** C6, amended.  [abort()] never throws.  When the state is neither
    aborted, nor done, nor failed, it sets [aborted] at once, changes no other
    field, and the delivery that is queued afterwards passes the aborted state
    to the callback.  In every other state (already aborted, done or failed)
    it changes nothing and queues nothing. *)
Theorem abort_effect viaForceFetch querySet mode w events :
  let r := (exec events (w, invocation viaForceFetch querySet mode)).2 in
  let out := abort r in
  let abortedState :=
    {| aborted := true; done := false; error := None;
       ready := ready (readyState r); stale := stale (readyState r) |} in
  threw out = false
  ∧ (if accepts (readyState r)
     then readyState (after out) = abortedState
          ∧ scheduled (after out) = true ∧ immediates (after out) = 1
          ∧ delivered (after out) = delivered r
          ∧ delivered (runImmediate (after out)) = delivered r ++ [abortedState]
     else after out = r).
Proof.
  intros r out abortedState.
  assert (sound r) as (Ht & _) by apply exec_sound, invocation_sound.
  clearbody r. subst out. unfold abort. split.
  { rewrite setReadyState_threw. simpl. by rewrite andb_false_r. }
  destruct (accepts (readyState r)) eqn:Hacc.
  2:{ by apply setReadyState_rejects. }
  pose proof (setReadyState_readyState abortPartial r) as Hrs.
  pose proof (setReadyState_surroundings abortPartial r) as Hsur.
  pose proof (setReadyState_tidy abortPartial r Ht) as Ht'.
  pose proof (setReadyState_scheduled abortPartial r) as Hsch.
  rewrite Hacc in Hrs. rewrite Hacc, orb_true_r in Hsch.
  assert (mergeReadyState abortPartial (readyState r) = abortedState) as Hab.
  { subst abortedState. unfold accepts in Hacc.
    destruct (readyState r) as [a d e rd st]. simpl in *.
    destruct a, d, e; try discriminate; done. }
  rewrite Hab in Hrs. unfold surroundings in Hsur.
  injection Hsur as _ _ _ _ _ _ _ Hdl.
  unfold tidy in Ht'. rewrite Hsch in Ht'.
  split_and!; [done..|]. unfold runImmediate. rewrite Ht'. simpl.
  by rewrite Hdl, Hrs.
Qed.

(** The non-null queries of a query set, as both entry points collect
    them. *)
Lemma nonNull_omap (querySet : RelayQuerySet) :
  flat_map (λ entry : string * option Query,
    match entry.2 with
    | Some query => [query]
    | None => []
    end) querySet = omap snd querySet.
Proof.
  induction querySet as [|[name [q|]] qs IH]; simpl; [done| |done].
  by rewrite IH.
Qed.

(** C7.  [forceFetch querySet] is [run querySet] with the fetch mode
    REFETCH: the same closure, the same profilers, the same list of queries,
    which is every non-null query of the set, unchanged and in order, with no
    diffing.  The awaited task generates the force index once (the counter of
    [generateForceIndex] advances by one, and by nothing more whatever
    happens afterwards) and every fetch it creates carries it, whereas in
    CLIENT mode the counter stays and the fetches carry none.  Every query of
    the split and flattened list gets its fetch from the registry, nothing is
    skipped; and the state is ready after the awaited task and the disk-cache
    callback exactly when every query is deferred or every fetch of the
    remaining-required map can be resolved from the cache. *)
Theorem forceFetch_is_run_refetch querySet w check :
  let r0 := forceFetch querySet in
  let flat := flattenedQueries (splitAndFlattenQueries (queries r0)) in
  let c1 := step (w, r0) EvAwait in
  let c2 := step c1 (EvDiskCache check) in
  let client := step (w, run querySet None) EvAwait in
  forceFetch querySet = run querySet (Some FETCH_MODE_REFETCH)
  ∧ queries r0 = omap snd querySet
  ∧ forceIndexCounter c1.1 = S (forceIndexCounter w)
  ∧ (∀ events, forceIndexCounter (exec events c1).1 = S (forceIndexCounter w))
  ∧ (∀ queryID,
       addedWith FETCH_MODE_REFETCH (Some (forceIndexCounter w)) queryID w c1.1)
  ∧ forceIndexCounter client.1 = forceIndexCounter w
  ∧ (∀ queryID, addedWith FETCH_MODE_CLIENT None queryID w client.1)
  ∧ Forall (λ query, agree (getID query) c1) flat
  ∧ ready (readyState c2.2) =
      forallb isDeferred flat
      || everyObject (remainingRequiredFetchMap c1.2) (canResolve check)
  ∧ delivered (step c2 EvImmediate).2 = [readyState c2.2].
Proof.
  intros r0 flat c1 c2 client.
  assert (awaiting r0 = true ∧ fresh r0 ∧ fetchMode r0 = FETCH_MODE_REFETCH)
    as (Haw & Hfresh & Hmode) by done.
  assert (awaiting (run querySet None) = true
          ∧ fetchMode (run querySet None) = FETCH_MODE_CLIENT)
    as (Hawc & Hmodec) by done.
  pose proof (step_await_pair w r0 Haw) as Hstep. fold c1 in Hstep.
  pose proof (step_await_pair w _ Hawc) as Hstepc. fold client in Hstepc.
  cbv zeta in Hstep, Hstepc.
  match type of Hstep with _ = ((awaitedTask w ?r).1, _) =>
    pose proof (awaitedTask_world w r) as (Hfc & Hadd & Hag);
    pose proof (awaitedTask_control w r) as (Hawait & _) end.
  match type of Hstepc with _ = ((awaitedTask w ?r).1, _) =>
    pose proof (awaitedTask_world w r) as (Hfcc & Haddc & _) end.
  cbv zeta in Hawait. unfold taskForceIndex in Hadd, Haddc.
  simpl fetchMode in Hfc, Hadd, Hfcc, Haddc.
  destruct (decide (FETCH_MODE_REFETCH = FETCH_MODE_REFETCH)) as [_|?];
    [|done].
  destruct (decide (FETCH_MODE_CLIENT = FETCH_MODE_REFETCH)) as [?|_];
    [done|].
  rewrite <-Hstep in Hag.
  assert (c1.1 = (awaitedTask w (set_loop (scheduled r0) false
                    (diskCacheCallbacks r0) (handlers r0) (immediates r0)
                    (delivered r0) r0)).1) as Hw1 by by rewrite Hstep.
  assert (client.1 = (awaitedTask w (set_loop (scheduled (run querySet None))
                    false (diskCacheCallbacks (run querySet None))
                    (handlers (run querySet None))
                    (immediates (run querySet None))
                    (delivered (run querySet None)) (run querySet None))).1)
    as Hwc by by rewrite Hstepc.
  assert (awaiting c1.2 = false) as Haw1 by by rewrite Hstep.
  split_and!.
  - done.
  - apply nonNull_omap.
  - by rewrite Hw1.
  - intros events. rewrite <-Hfc, <-Hw1.
    clear -Haw1. destruct c1 as [w1 r1]. simpl in *.
    revert w1 r1 Haw1. induction events as [|ev events IH]; intros w1 r1 Haw1;
      [done|].
    rewrite exec_cons.
    pose proof (step_world w1 r1 ev Haw1) as Hw.
    pose proof (step_awaiting w1 r1 ev Haw1) as Ha.
    destruct (step (w1, r1) ev) as [w2 r2]. simpl in Hw, Ha. subst w2.
    by apply IH.
  - intros queryID. rewrite Hw1. apply Hadd.
  - by rewrite Hwc.
  - intros queryID. rewrite Hwc. apply Haddc.
  - apply Forall_forall. intros query Hin. by apply Hag.
  - destruct (await_diskCache_control w r0 check Haw Hfresh) as [_ Hc2].
    fold flat c1 in Hc2. fold c2 in Hc2.
    unfold control in Hc2. injection Hc2 as -> _ _ _.
    unfold firstReadyState.
    destruct flat as [|q flat']; [done|].
    destruct (forallb isDeferred (q :: flat')); simpl; [done|].
    by destruct (everyObject _ _).
  - destruct (await_diskCache_control w r0 check Haw Hfresh) as [_ Hc2].
    fold flat c1 in Hc2. fold c2 in Hc2.
    destruct c2 as [w2 r2]. unfold control in Hc2.
    change ((w2, r2).2) with r2 in *.
    injection Hc2 as _ _ Him Hdl.
    unfold step, runImmediate. rewrite Him. simpl. by rewrite Hdl.
Qed.

(** [queries.some(...)] finds a query with a deferred descendant exactly when
    there is one, and warns about the first one only. *)
Lemma someDeferredDescendant_first queries :
  someDeferredDescendant queries =
  (existsb hasDeferredDescendant queries,
   take 1 (getName <$> filter (λ q, hasDeferredDescendant q = true) queries)).
Proof.
  induction queries as [|q qs IH]; [done|]. simpl. rewrite filter_cons.
  destruct (decide (hasDeferredDescendant q = true)) as [E|E].
  - by rewrite E.
  - apply not_true_is_false in E. by rewrite E.
Qed.

(** C8, amended.  If the network layer does not support [defer] and some
    input query has a deferred descendant, the whole input list is returned
    as it is, no query is passed to the splitting collaborator, and one
    warning is emitted, naming the first such query; the call returns
    normally.  Otherwise every query is passed through the splitting
    collaborator, in order, the flattened results are concatenated in that
    order, and nothing is warned about. *)
Theorem splitAndFlattenQueries_all_or_nothing queries :
  splitAndFlattenQueries queries =
  if negb (supports "defer") && existsb hasDeferredDescendant queries
  then {| flattenedQueries := queries;
          warned := take 1 (getName <$>
                      filter (λ q, hasDeferredDescendant q = true) queries);
          splitCalls := [] |}
  else {| flattenedQueries :=
            flat_map (λ query,
              flattenSplitRelayQueries (splitDeferredRelayQueries query))
              queries;
          warned := [];
          splitCalls := queries |}.
Proof.
  unfold splitAndFlattenQueries. rewrite someDeferredDescendant_first.
  destruct (supports "defer"); simpl; [done|].
  destruct (existsb hasDeferredDescendant queries) eqn:E; [done|].
  unfold splitAll. simpl. f_equal.
  assert (filter (λ q, hasDeferredDescendant q = true) queries = []) as ->;
    [|done].
  induction queries as [|q qs IH]; [done|]. simpl in E.
  apply orb_false_iff in E as [Eq Eqs]. rewrite filter_cons.
  rewrite decide_False by congruence. by apply IH.
Qed.

Lemma applyOp_keeps queryID ops w pendingFetch :
  Forall (λ op, op ≠ OpSettle queryID) ops →
  registry w !! queryID = Some pendingFetch →
  registry (foldl applyOp w ops) !! queryID = Some pendingFetch
  ∧ issuedFor queryID (foldl applyOp w ops) = issuedFor queryID w.
Proof.
  revert w. induction ops as [|op ops IH]; intros w Hall Hreg; [done|].
  apply Forall_cons in Hall as [Hop Hall]. simpl.
  assert (registry (applyOp w op) !! queryID = Some pendingFetch
          ∧ issuedFor queryID (applyOp w op) = issuedFor queryID w)
    as [Hreg' Hiss].
  { destruct op as [q mode fi|queryID']; simpl.
    - pose proof (add_addedWith q mode fi queryID w) as Ha.
      unfold addedWith in Ha. by rewrite Hreg in Ha.
    - split; [|done]. rewrite lookup_delete_ne; [done|]. congruence. }
  destruct (IH (applyOp w op) Hall Hreg') as [-> ->]. done.
Qed.

(** C9.  Two invocations whose split and flattened query lists both contain
    a query with the id [queryID], the second registering its queries while
    the fetch the first one obtained is still outstanding (no settlement of
    [queryID] in between, whatever else happens to the registry): both
    remaining maps hold the same pending fetch for [queryID], the second
    registration begins no fetch for it, and over both registrations at most
    one fetch is begun for it. *)
Theorem pending_fetch_shared w r1 r2 between queryID :
  let c1 := awaitedTask w r1 in
  let w1 := foldl applyOp c1.1 between in
  let c2 := awaitedTask w1 r2 in
  queryID ∈ getID <$> flattenedQueries (splitAndFlattenQueries (queries r1)) →
  queryID ∈ getID <$> flattenedQueries (splitAndFlattenQueries (queries r2)) →
  Forall (λ op, op ≠ OpSettle queryID) between →
  ∃ pendingFetch,
    remainingFetchMap (after c1.2) !! queryID = Some pendingFetch
    ∧ remainingFetchMap (after c2.2) !! queryID = Some pendingFetch
    ∧ registry c2.1 !! queryID = Some pendingFetch
    ∧ issuedFor queryID c2.1 = issuedFor queryID c1.1
    ∧ (issuedFor queryID c2.1 ≤ S (issuedFor queryID w))%nat.
Proof.
  intros c1 w1 c2 Hin1 Hin2 Hbetween.
  apply list_elem_of_fmap in Hin1 as (q1 & -> & Hin1).
  apply list_elem_of_fmap in Hin2 as (q2 & Hid & Hin2).
  destruct (awaitedTask_world w r1) as (_ & Hadd1 & Hag1).
  destruct (awaitedTask_world w1 r2) as (_ & Hadd2 & Hag2).
  fold c1 in Hadd1, Hag1. fold c2 in Hadd2, Hag2.
  destruct (Hag1 q1 Hin1) as [[pf Hpf] Hm1]. simpl in Hpf, Hm1.
  destruct (applyOp_keeps (getID q1) between c1.1 pf Hbetween Hpf)
    as [Hpf1 Hiss1].
  fold w1 in Hpf1, Hiss1.
  specialize (Hadd2 (getID q1)). unfold addedWith in Hadd2.
  rewrite Hpf1 in Hadd2. destruct Hadd2 as [Hpf2 Hiss2].
  destruct (Hag2 q2 Hin2) as [_ Hm2]. simpl in Hm2. rewrite <-Hid in Hm2.
  exists pf. split_and!; [congruence|congruence|done|congruence|].
  rewrite Hiss2, Hiss1.
  specialize (Hadd1 (getID q1)). unfold addedWith in Hadd1.
  destruct (registry w !! getID q1).
  - destruct Hadd1 as [_ ->]. lia.
  - destruct Hadd1 as [[_ ->]|(? & _ & _ & _ & _ & ->)]; lia.
Qed.

End Claims.

(** C10.  [stale] is not monotone.  In every invocation, whenever
    [onResolved] changes the state, the new state has [ready] true and [stale]
    false, whatever [stale] was, and the queued delivery passes it to the
    callback; and there is an invocation whose callback first receives the
    ready and stale state set by the disk-cache callback and then, once its
    required fetch has resolved, a state whose [stale] is false again. *)
Theorem stale_reverts :
  (∀ (collaborators : Collaborators) viaForceFetch querySet mode w events
     isResolvable pendingFetch,
     let r := (exec (H := collaborators) events
                 (w, invocation (H := collaborators)
                       viaForceFetch querySet mode)).2 in
     let r' := after (onResolved isResolvable pendingFetch r) in
     readyState r' = readyState r
     ∨ ready (readyState r') = true ∧ stale (readyState r') = false
       ∧ delivered (runImmediate r') = delivered r ++ [readyState r'])
  ∧ ∃ (collaborators : Collaborators) querySet check isResolvable pendingFetch,
      delivered (exec (H := collaborators)
                   [EvAwait; EvDiskCache check; EvImmediate;
                    EvResolved pendingFetch isResolvable; EvImmediate]
                   (initialWorld, run (H := collaborators) querySet None)).2
      = [readyStaleState; doneReadyState].
Proof.
  split.
  - intros collaborators viaForceFetch querySet mode w events isResolvable
      pendingFetch r r'.
    assert (tidy r) as Ht by apply exec_sound, invocation_sound.
    clearbody r. subst r'.
    destruct (onResolved_control isResolvable pendingFetch r)
      as (_ & _ & _ & [Hc|[isDone Hc]]).
    { left. unfold control in Hc. by injection Hc. }
    unfold control, applyPartial in Hc.
    destruct (accepts (readyState r)) eqn:Hacc.
    2:{ left. by injection Hc. }
    right. injection Hc as Hs Hsch Him Hdl.
    rewrite Hs. split_and!; [done..|].
    unfold tidy in Ht. unfold runImmediate.
    rewrite Him, Hdl, Hs. by destruct (scheduled r); rewrite ?Ht.
  - exists withDefer, [("viewer", Some queryA)], (λ _, true),
      (λ _, false),
      {| getQuery := queryA; getFetchMode := FETCH_MODE_CLIENT;
         getForceIndex := None; instance := 0 |}.
    vm_compute. done.
Qed.

(** ** Examples *)

Section Examples.
#[local] Existing Instance withDefer.

Example forceFetch_registers_AB :
  let c := exec [EvAwait]
             (initialWorld, forceFetch setAB) in
  handlers c.2 = [fetchA; fetchB]
  ∧ remainingFetchMap c.2 = {[ "A" := fetchA; "B" := fetchB ]}
  ∧ remainingRequiredFetchMap c.2 = {[ "A" := fetchA; "B" := fetchB ]}
  ∧ issued c.1 = ["A"; "B"]
  ∧ readyState c.2 = initialReadyState.
Proof. vm_compute. done. Qed.

(** A required query and the deferred part split from it: ready and stale
    from the disk cache, then ready when the required part resolves, then
    done when the deferred part does. *)
Example required_then_deferred :
  let partD := {| getQuery := requiredPart queryD;
                  getFetchMode := FETCH_MODE_CLIENT;
                  getForceIndex := None; instance := 0 |} in
  let partDeferred := {| getQuery := deferredPart queryD;
                         getFetchMode := FETCH_MODE_CLIENT;
                         getForceIndex := None; instance := 1 |} in
  delivered (exec
    [EvAwait; EvDiskCache (λ _, true); EvImmediate;
     EvResolved partD (λ _, false); EvImmediate;
     EvResolved partDeferred (λ _, false); EvImmediate]
    (initialWorld, run [("profile", Some queryD)] None)).2
  = [readyStaleState;
     {| aborted := false; done := false; error := None; ready := true;
        stale := false |};
     doneReadyState].
Proof. vm_compute. done. Qed.

(** A query set whose only query is deferred: ready at once, done when the
    deferred fetch has resolved. *)
Example deferred_only :
  let fetchE := {| getQuery := queryE; getFetchMode := FETCH_MODE_CLIENT;
                   getForceIndex := None; instance := 0 |} in
  delivered (exec
    [EvAwait; EvImmediate; EvResolved fetchE (λ _, false); EvImmediate]
    (initialWorld, run [("comments", Some queryE)] None)).2
  = [{| aborted := false; done := false; error := None; ready := true;
        stale := false |};
     doneReadyState].
Proof. vm_compute. done. Qed.

(** [abort()] before any fetch settles: the aborted state is delivered, and
    nothing after it, whatever the fetches do. *)
Example abort_suppresses :
  delivered (exec
    [EvAwait; EvAbort; EvImmediate; EvResolved fetchA (λ _, false);
     EvRejected fetchB "boom"; EvImmediate; EvAbort; EvImmediate]
    (initialWorld, forceFetch setAB)).2
  = [{| aborted := true; done := false; error := None; ready := false;
        stale := false |}].
Proof. vm_compute. done. Qed.

(** C5.  The code at a second rejection.  Two required fetches; the first
    rejects with "boom", then the second rejects with "bam": [setReadyState]
    throws its invariant on the second error, so [onRejected] never reaches
    the deletions written after the call.  The id "B" stays in both remaining
    maps, the state keeps the first error, and the callback is called once,
    with the first error only.  The other paths do delete: in the same state
    [onResolved] deletes the id "B" from both maps before it calls
    [setReadyState], and after [abort()] [onRejected] itself deletes it. *)
Lemma second_rejection_not_removed :
  let c := exec
             [EvAwait; EvRejected fetchA "boom"]
             (initialWorld, forceFetch setAB) in
  let out := onRejected fetchB "bam" c.2 in
  let resolved := onResolved (λ _, false) fetchB c.2 in
  let c' := exec
              [EvAwait; EvAbort]
              (initialWorld, forceFetch setAB) in
  let afterAbort := onRejected fetchB "bam" c'.2 in
  threw out = true
  ∧ error (readyState (after out)) = Some "boom"
  ∧ remainingFetchMap (after out) !! "B" ≠ None
  ∧ remainingRequiredFetchMap (after out) !! "B" ≠ None
  ∧ delivered (exec
                 [EvRejected fetchB "bam"; EvImmediate; EvImmediate] c).2
    = [{| aborted := false; done := false; error := Some "boom";
          ready := false; stale := false |}]
  ∧ remainingFetchMap c.2 !! "B" = remainingFetchMap c'.2 !! "B"
  ∧ remainingFetchMap (after resolved) !! "B" = None
  ∧ remainingRequiredFetchMap (after resolved) !! "B" = None
  ∧ threw afterAbort = false
  ∧ remainingFetchMap (after afterAbort) !! "B" = None
  ∧ remainingRequiredFetchMap (after afterAbort) !! "B" = None.
Proof. vm_compute. split_and!; done. Qed.

(** C6 as stated fails after [done]: [run] of the empty query set is done
    after the awaited task; [abort()] then leaves [aborted] false, and no
    aborted state is ever delivered. *)
Lemma abort_after_done_ignored :
  let c := exec [EvAwait; EvImmediate]
             (initialWorld, run [] None) in
  done (readyState c.2) = true
  ∧ aborted (readyState (after (abort c.2))) ≠ true
  ∧ after (abort c.2) = c.2
  ∧ delivered (exec
                 [EvAbort; EvImmediate] c).2 = [doneReadyState].
Proof. vm_compute. split_and!; done. Qed.

(** C8 as stated fails for a list with one query that has a deferred
    descendant and one that has none, on a network layer without [defer]:
    the code returns the whole list and passes nothing to the splitting
    collaborator, where the claim has the second query go through it. *)
Lemma other_queries_not_split :
  let code := splitAndFlattenQueries (H := withoutDefer)
                [queryD; queryA] in
  let claimed := splitAndFlattenQueries_perQuery (H := withoutDefer)
                   [queryD; queryA] in
  splitCalls code = []
  ∧ splitCalls claimed = [queryA]
  ∧ flattenedQueries code = [queryD; queryA]
  ∧ warned code = ["ProfileQuery"]
  ∧ code ≠ claimed.
Proof. vm_compute. split_and!; done. Qed.

(** ** The theorems with a hypothesis, at concrete inputs *)

Lemma ready_done_monotone_abort_final_witness :
  let r1 := (exec [EvAwait; EvAbort]
               (initialWorld, forceFetch setAB)).2 in
  let r2 := (exec
               ([EvAwait; EvAbort]
                ++ [EvResolved fetchA (λ _, false); EvImmediate;
                    EvRejected fetchB "boom"; EvImmediate])
               (initialWorld, forceFetch setAB)).2 in
  aborted (readyState r1) = true
  ∧ readyState r2 = readyState r1
  ∧ (delivered r2 = delivered r1 ∧ immediates r2 = immediates r1
     ∨ immediates r1 = 1 ∧ immediates r2 = 0
       ∧ delivered r2 = delivered r1 ++ [readyState r1]).
Proof.
  intros r1 r2.
  assert (aborted (readyState r1) = true) as Hab by (vm_compute; reflexivity).
  split; [exact Hab|].
  exact (proj2 (proj2 (ready_done_monotone_abort_final
    true setAB None initialWorld
    [EvAwait; EvAbort]
    [EvResolved fetchA (λ _, false); EvImmediate;
     EvRejected fetchB "boom"; EvImmediate])) Hab).
Defined.

Lemma rejection_terminal_witness :
  let c := exec [EvAwait]
             (initialWorld, forceFetch setAB) in
  let out := onRejected fetchA "boom" c.2 in
  let failed := {| aborted := false; done := false; error := Some "boom";
                   ready := false; stale := false |} in
  accepts (readyState c.2) = true
  ∧ threw out = false
  ∧ readyState (after out) = failed
  ∧ remainingFetchMap (after out) !! "A" = None
  ∧ readyState (exec
                  [EvResolved fetchB (λ _, false); EvImmediate; EvAbort]
                  (c.1, after out)).2 = failed.
Proof.
  intros c out failed.
  assert (accepts (readyState c.2) = true) as Hacc by (vm_compute; reflexivity).
  destruct (rejection_terminal true setAB
              None initialWorld [EvAwait] fetchA "boom"
              [EvResolved fetchB (λ _, false); EvImmediate; EvAbort] Hacc)
    as (Hthr & Hrs & Hm & _ & _ & Hlater & _).
  split_and!; [exact Hacc|exact Hthr|exact Hrs| |exact Hlater].
  etrans; [exact (f_equal (λ m, m !! "A") Hm)|apply lookup_delete_eq].
Defined.

Lemma pending_fetch_shared_witness :
  let c1 := awaitedTask initialWorld
              (forceFetch setAB) in
  let between := [OpAdd queryD FETCH_MODE_CLIENT None; OpSettle "B"] in
  let c2 := awaitedTask
              (foldl applyOp c1.1 between)
              (run
                 [("viewer", Some queryA)] None) in
  ∃ pendingFetch,
    remainingFetchMap (after c1.2) !! "A" = Some pendingFetch
    ∧ remainingFetchMap (after c2.2) !! "A" = Some pendingFetch
    ∧ registry c2.1 !! "A" = Some pendingFetch
    ∧ issuedFor "A" c2.1 = issuedFor "A" c1.1
    ∧ (issuedFor "A" c2.1 ≤ S (issuedFor "A" initialWorld))%nat.
Proof.
  intros c1 between c2.
  apply (pending_fetch_shared initialWorld
           (forceFetch setAB)
           (run [("viewer", Some queryA)] None)
           between "A").
  - vm_compute. apply list_elem_of_here.
  - vm_compute. apply list_elem_of_here.
  - repeat constructor; discriminate.
Defined.

End Examples.

(** ** Further properties of the runner *)

Lemma mergeReadyState_wellShaped r ev partial :
  Emitted r ev partial →
  accepts (readyState r) = true →
  (awaiting r = true → ready (readyState r) = false) →
  wellShaped (readyState r) →
  wellShaped (mergeReadyState partial (readyState r)).
Proof.
  intros Hem Hacc Hwait (Hdone & Hstale & Hab).
  unfold accepts in Hacc. destruct (readyState r) as [a d e rd st].
  simpl in *. destruct a, d; try discriminate. destruct e; [discriminate|].
  clear Hdone Hab Hacc.
  assert (awaiting r = true → rd = false ∧ st = false) as Hinit.
  { intros Haw. specialize (Hwait Haw). subst rd.
    destruct st; [by specialize (Hstale eq_refl)|done]. }
  destruct Hem as [Haw|isReady Haw|check|pf isRes isDone|pf e'| ];
    unfold wellShaped; simpl;
    try (destruct (Hinit Haw) as [-> ->]);
    try destruct isDone; by split_and!.
Qed.

Section Further.
Context `{Collaborators}.

(** The three cases of [step_control], with the runner after the step as an
    opaque [r']. *)
Ltac control_cases w r ev r' :=
  let Hstep := fresh "Hstep" in
  pose proof (step_control w r ev) as Hstep; cbv zeta in Hstep;
  set (r' := (step (w, r) ev).2) in *; clearbody r';
  destruct Hstep as [Hc|[[-> ->]|(p & Hem & Hc)]].

Lemma step_wellShaped w r ev :
  waiting_ok r →
  wellShaped (readyState r) ∧ Forall wellShaped (delivered r) →
  wellShaped (readyState (step (w, r) ev).2)
  ∧ Forall wellShaped (delivered (step (w, r) ev).2).
Proof.
  intros Hok [Hs Hd]. control_cases w r ev r'.
  - unfold control in Hc. injection Hc as -> _ _ ->. done.
  - unfold runImmediate. destruct (immediates r); [done|]. simpl.
    split; [done|]. apply Forall_app. split; [done|]. by constructor.
  - unfold control, applyPartial in Hc.
    destruct (accepts (readyState r)) eqn:Hacc; injection Hc as -> _ _ ->;
      [|done].
    split; [|done]. eapply mergeReadyState_wellShaped; [done..| |done].
    intros Haw. by apply Hok.
Qed.

Lemma exec_wellShaped events w r :
  sound r →
  wellShaped (readyState r) ∧ Forall wellShaped (delivered r) →
  wellShaped (readyState (exec events (w, r)).2)
  ∧ Forall wellShaped (delivered (exec events (w, r)).2).
Proof.
  revert w r. induction events as [|ev events IH]; intros w r Hsound Hr;
    [done|].
  rewrite exec_cons.
  pose proof (step_sound w r ev Hsound) as Hsound'.
  pose proof (step_wellShaped w r ev (proj1 (proj2 Hsound)) Hr) as Hr'.
  destruct (step (w, r) ev) as [w1 r1]. by apply IH.
Qed.

(** X1.  In every invocation, at every moment, the stored state and every
    state the callback has received are well shaped: a done state is ready,
    not stale and without error, a stale state is ready, and an aborted state
    is neither done nor failed. *)
Theorem states_wellShaped viaForceFetch querySet mode w events :
  let r := (exec events (w, invocation viaForceFetch querySet mode)).2 in
  wellShaped (readyState r) ∧ Forall wellShaped (delivered r).
Proof.
  apply exec_wellShaped; [apply invocation_sound|].
  destruct viaForceFetch; (split; [|by constructor]);
    unfold wellShaped; simpl; by split_and!.
Qed.

Lemma step_caughtUp w r ev :
  tidy r →
  scheduled r = true
  ∨ (delivered r = [] ∧ readyState r = initialReadyState)
  ∨ last (delivered r) = Some (readyState r) →
  let r' := (step (w, r) ev).2 in
  scheduled r' = true
  ∨ (delivered r' = [] ∧ readyState r' = initialReadyState)
  ∨ last (delivered r') = Some (readyState r').
Proof.
  intros Ht Hr. cbv zeta. control_cases w r ev r'.
  - unfold control in Hc. injection Hc as -> -> _ ->. done.
  - unfold runImmediate. destruct (immediates r) as [|n] eqn:Him; [done|].
    simpl. right; right. by rewrite last_snoc.
  - unfold control, applyPartial in Hc.
    destruct (accepts (readyState r)); injection Hc as -> -> _ ->;
      [by left|done].
Qed.

Lemma exec_caughtUp events w r :
  sound r →
  scheduled r = true
  ∨ (delivered r = [] ∧ readyState r = initialReadyState)
  ∨ last (delivered r) = Some (readyState r) →
  let r' := (exec events (w, r)).2 in
  scheduled r' = true
  ∨ (delivered r' = [] ∧ readyState r' = initialReadyState)
  ∨ last (delivered r') = Some (readyState r').
Proof.
  revert w r. induction events as [|ev events IH]; intros w r Hsound Hr;
    [done|].
  cbv zeta. rewrite exec_cons.
  pose proof (step_sound w r ev Hsound) as Hsound'.
  pose proof (step_caughtUp w r ev (proj1 Hsound) Hr) as Hr'.
  cbv zeta in Hr'. destruct (step (w, r) ev) as [w1 r1]. by apply IH.
Qed.

(** X2.  No update is lost: in every invocation, at every moment, either a
    delivery is scheduled, or the last state the callback received is the
    stored state, or nothing has been delivered and the state is still the
    initial one. *)
Theorem no_update_lost viaForceFetch querySet mode w events :
  let r := (exec events (w, invocation viaForceFetch querySet mode)).2 in
  scheduled r = true
  ∨ (delivered r = [] ∧ readyState r = initialReadyState)
  ∨ last (delivered r) = Some (readyState r).
Proof.
  apply exec_caughtUp; [apply invocation_sound|].
  right; left. by destruct viaForceFetch.
Qed.

Lemma setReadyState_progress partial r1 r2 :
  progress r1 = progress r2 →
  progress (after (setReadyState partial r1))
  = progress (after (setReadyState partial r2)).
Proof.
  unfold progress. intros [= Hs Hp].
  destruct r1 as [s1 sch1 m1 mr1 qs1 fm1 pr1 aw1 dc1 hs1 im1 dl1],
           r2 as [s2 sch2 m2 mr2 qs2 fm2 pr2 aw2 dc2 hs2 im2 dl2].
  simpl in *. subst s2 pr2. unfold setReadyState. simpl.
  destruct (aborted s1); [done|].
  destruct (done s1 || bool_decide (is_Some (error s1)));
    [by destruct (truthy (p_aborted partial))|].
  destruct (truthy (p_ready partial) && negb (ready s1)),
           (truthy (p_done partial) && negb (done s1)), sch1, sch2; done.
Qed.

Lemma setReadyState_params partial r :
  queries (after (setReadyState partial r)) = queries r
  ∧ fetchMode (after (setReadyState partial r)) = fetchMode r.
Proof.
  pose proof (setReadyState_surroundings partial r) as Hsur.
  unfold surroundings in Hsur. by injection Hsur as _ _ -> -> _ _ _ _.
Qed.

Lemma setReadyState_profiled partial r :
  (p_ready partial = Some false → ready (readyState r) = false) →
  profiled r → profiled (after (setReadyState partial r)).
Proof.
  unfold profiled, setReadyState.
  destruct r as [[a d e rd st] sch m mr qs fm [pn ds ins rs] aw dc hs im dl],
           partial as [pa pd pe pr ps].
  simpl. intros Hready (Hrs & Hds & His). subst.
  destruct a; [done|]. simpl.
  destruct (d || bool_decide (is_Some e)) eqn:Hde;
    [by destruct (truthy pa)|].
  apply orb_false_iff in Hde as [-> _].
  destruct pr as [[]|], rd, pd as [[]|], sch; simpl in *;
    try done; by specialize (Hready eq_refl).
Qed.

Lemma setReadyState_profileName partial r :
  profileName (profilers (after (setReadyState partial r)))
  = profileName (profilers r).
Proof. setReadyState_cases partial r. Qed.

Lemma awaitedTask_progress w r :
  let r' := after (awaitedTask w r).2 in
  queries r' = queries r ∧ fetchMode r' = fetchMode r
  ∧ ∃ partial, progress r' = progress (after (setReadyState partial r))
      ∧ partial ∈ [doneReadyPartial; readyPartial true; readyPartial false].
Proof.
  unfold awaitedTask.
  destruct (if decide (fetchMode r = FETCH_MODE_REFETCH)
            then let '(i, w') := generateForceIndex w in (Some i, w')
            else (None, w)) as [forceIndex w1].
  set (flat := splitAndFlattenQueries (queries r)).
  pose proof (registerQuery_frame (fetchMode r) forceIndex
                (flattenedQueries flat) (warn (warned flat) w1) r) as Hframe.
  destruct (foldl (registerQuery (fetchMode r) forceIndex)
              (warn (warned flat) w1, r) (flattenedQueries flat)) as [w3 r1].
  cbv zeta in Hframe. change ((w3, r1).2) with r1 in Hframe.
  destruct Hframe as (Hc & _ & _ & Hq & Hf & Hp).
  assert (progress r1 = progress r) as Hpr.
  { unfold progress, control in *. injection Hc as -> _ _ _. by rewrite Hp. }
  assert (∀ partial,
            queries (after (setReadyState partial r1)) = queries r
            ∧ fetchMode (after (setReadyState partial r1)) = fetchMode r
            ∧ progress (after (setReadyState partial r1))
              = progress (after (setReadyState partial r))) as Hall.
  { intros partial. destruct (setReadyState_params partial r1) as [-> ->].
    split_and!; [done..|]. by apply setReadyState_progress. }
  cbv zeta. change ((w3, ?x).2) with x.
  destruct (hasItems (remainingFetchMap r1)); simpl.
  2:{ destruct (Hall doneReadyPartial) as (? & ? & ?).
      split_and!; [done..|]. exists doneReadyPartial. split; [done|set_solver]. }
  destruct (hasItems (remainingRequiredFetchMap r1)); simpl.
  2:{ destruct (Hall (readyPartial true)) as (? & ? & ?).
      split_and!; [done..|]. exists (readyPartial true).
      split; [done|set_solver]. }
  destruct (Hall (readyPartial false)) as (Hq' & Hf' & Hp').
  destruct (setReadyState (readyPartial false) r1) as [r2|msg r2];
    (split_and!; [done..|]); exists (readyPartial false);
    (split; [exact Hp'|set_solver]).
Qed.

Lemma onResolved_progress isResolvable pendingFetch r :
  let r' := after (onResolved isResolvable pendingFetch r) in
  queries r' = queries r ∧ fetchMode r' = fetchMode r
  ∧ (progress r' = progress r
     ∨ ∃ isDone, progress r'
                 = progress (after (setReadyState (resolvedPartial isDone) r))).
Proof.
  unfold onResolved.
  set (r1 := set_maps _ _ r).
  assert (progress r1 = progress r ∧ queries r1 = queries r
          ∧ fetchMode r1 = fetchMode r) as (Hp & Hq & Hf) by done.
  clearbody r1. cbv zeta.
  destruct (hasItems (remainingRequiredFetchMap r1)); [by auto|].
  destruct (someObject (remainingFetchMap r1) isResolvable); [by auto|].
  destruct (hasItems (remainingFetchMap r1)).
  - destruct (setReadyState_params (resolvedPartial false) r1) as [-> ->].
    split_and!; [done..|]. right. exists false.
    by apply setReadyState_progress.
  - destruct (setReadyState_params (resolvedPartial true) r1) as [-> ->].
    split_and!; [done..|]. right. exists true.
    by apply setReadyState_progress.
Qed.

Lemma onRejected_progress pendingFetch e r :
  let r' := after (onRejected pendingFetch e r) in
  queries r' = queries r ∧ fetchMode r' = fetchMode r
  ∧ progress r' = progress (after (setReadyState (errorPartial e) r)).
Proof.
  unfold onRejected.
  destruct (setReadyState_params (errorPartial e) r) as [Hq Hf].
  by destruct (setReadyState (errorPartial e) r) as [r1|msg r1].
Qed.

Lemma diskCacheCallback_progress check r :
  let r' := after (diskCacheCallback check r) in
  queries r' = queries r ∧ fetchMode r' = fetchMode r
  ∧ (progress r' = progress r
     ∨ progress r' = progress (after (setReadyState readyStalePartial r))).
Proof.
  unfold diskCacheCallback.
  destruct (hasItems (remainingRequiredFetchMap r)); [|by auto].
  destruct (everyObject _ _); [|by auto].
  destruct (setReadyState_params readyStalePartial r) as [-> ->]. auto.
Qed.

(** What one turn of the event loop does to the state and the profilers:
    nothing, or one call of [setReadyState]; the parameters of the closure
    stay. *)
Lemma step_progress w r ev :
  let r' := (step (w, r) ev).2 in
  queries r' = queries r ∧ fetchMode r' = fetchMode r
  ∧ (progress r' = progress r
     ∨ ∃ partial, Emitted r ev partial
         ∧ progress r' = progress (after (setReadyState partial r))).
Proof.
  destruct ev as [|check|pf isRes|pf e| |]; simpl.
  - destruct (awaiting r) eqn:Haw; [|by auto].
    set (r0 := set_loop _ _ _ _ _ _ r).
    destruct (awaitedTask_progress w r0) as (Hq & Hf & partial & Hp & Hin).
    destruct (awaitedTask w r0) as [w' out]. simpl in *.
    split_and!; [done..|]. right. exists partial. split.
    + repeat (apply elem_of_cons in Hin as [->|Hin]);
        [by constructor..|by apply elem_of_nil in Hin].
    + rewrite Hp. by apply setReadyState_progress.
  - destruct (diskCacheCallbacks r) as [|n]; [by auto|]. simpl.
    set (r0 := set_loop _ _ _ _ _ _ r).
    destruct (diskCacheCallback_progress check r0) as (Hq & Hf & [Hp|Hp]);
      (split_and!; [done..|]); [by left|].
    right. exists readyStalePartial. split; [constructor|].
    rewrite Hp. by apply setReadyState_progress.
  - destruct (fire pf (handlers r)) as [hs|]; [|by auto]. simpl.
    destruct (onResolved_progress isRes pf (set_handlers hs r))
      as (Hq & Hf & [Hp|[isDone Hp]]); (split_and!; [done..|]); [by left|].
    right. exists (resolvedPartial isDone). split; [constructor|].
    rewrite Hp. by apply setReadyState_progress.
  - destruct (fire pf (handlers r)) as [hs|]; [|by auto]. simpl.
    destruct (onRejected_progress pf e (set_handlers hs r)) as (Hq & Hf & Hp).
    split_and!; [done..|].
    right. exists (errorPartial e). split; [constructor|].
    rewrite Hp. by apply setReadyState_progress.
  - unfold abort. destruct (setReadyState_params abortPartial r) as [-> ->].
    split_and!; [done..|]. right. exists abortPartial. split; [constructor|done].
  - unfold runImmediate. destruct (immediates r); auto.
Qed.

Lemma exec_params events w r :
  queries (exec events (w, r)).2 = queries r
  ∧ fetchMode (exec events (w, r)).2 = fetchMode r.
Proof.
  revert w r. induction events as [|ev events IH]; intros w r; [done|].
  rewrite exec_cons.
  pose proof (step_progress w r ev) as (Hq & Hf & _).
  destruct (step (w, r) ev) as [w1 r1]. simpl in Hq, Hf.
  destruct (IH w1 r1) as [-> ->]. done.
Qed.

Lemma exec_profiled events w r :
  sound r → profiled r →
  profiled (exec events (w, r)).2
  ∧ profileName (profilers (exec events (w, r)).2) = profileName (profilers r).
Proof.
  revert w r. induction events as [|ev events IH]; intros w r Hsound Hr;
    [done|].
  rewrite exec_cons.
  pose proof (step_sound w r ev Hsound) as Hsound'.
  pose proof (step_progress w r ev) as (_ & _ & Hstep).
  cbv zeta in Hstep.
  destruct (step (w, r) ev) as [w1 r1]. change ((w1, r1).2) with r1 in *.
  assert (profiled r1
          ∧ profileName (profilers r1) = profileName (profilers r))
    as [Hr' Hname].
  { destruct Hstep as [Hp|(partial & Hem & Hp)];
      unfold progress in Hp; injection Hp as Hs Hpr.
    - unfold profiled in *. by rewrite Hs, Hpr.
    - pose proof (setReadyState_profiled partial r) as Hsrs.
      unfold profiled in Hsrs |- *. rewrite Hs, Hpr.
      split; [|apply setReadyState_profileName].
      apply Hsrs; [|done]. intros Hp.
      destruct Hsound as (_ & Hok & _).
      inversion Hem; subst; try discriminate. by apply Hok. }
  destruct (IH w1 r1 Hsound' Hr') as [? ->]. done.
Qed.

(** X3.  In every invocation, at every moment, the [initialize] profiler has
    been stopped exactly once, the [ready] profiler exactly once if the state
    is ready and never otherwise, the [done] profiler exactly once if the
    state is done and never otherwise; and the profiles keep the name that
    [createProfiles] gave them for the fetch mode of the invocation. *)
Theorem profilers_stopped_once viaForceFetch querySet mode w events :
  let r0 := invocation viaForceFetch querySet mode in
  let r := (exec events (w, r0)).2 in
  initializeStops (profilers r) = 1
  ∧ readyStops (profilers r) = (if ready (readyState r) then 1 else 0)
  ∧ doneStops (profilers r) = (if done (readyState r) then 1 else 0)
  ∧ profileName (profilers r) = profileName (createProfiles (fetchMode r0))
  ∧ profileName (profilers r) =
      (if decide (fetchMode r = FETCH_MODE_REFETCH)
       then "forceFetch" else "primeCache").
Proof.
  intros r0 r.
  destruct (exec_profiled events w r0) as [(Hrs & Hds & His) Hname].
  { apply invocation_sound. }
  { subst r0. by destruct viaForceFetch. }
  destruct (exec_params events w r0) as [_ Hmode].
  fold r in Hrs, Hds, His, Hname, Hmode.
  assert (profileName (profilers r0) = profileName (createProfiles (fetchMode r0)))
    as Hr0 by (subst r0; by destruct viaForceFetch).
  split_and!; [done..|congruence|].
  rewrite Hname, Hr0, Hmode. done.
Qed.

Lemma step_unstarted w r ev :
  waiting_ok r → unstarted r → unstarted (step (w, r) ev).2.
Proof.
  intros Hok Hun. destruct (awaiting r) eqn:Haw.
  2:{ intros Haw'. by rewrite step_awaiting in Haw'. }
  destruct (Hok Haw) as (Hdc & Hhs & _). destruct (Hun Haw) as (He & Hm & Hmr).
  destruct ev as [|check|pf isRes|pf e| |]; simpl.
  - rewrite Haw.
    match goal with |- context [awaitedTask w ?r0] =>
      destruct (awaitedTask_control w r0) as (Ha & _);
      destruct (awaitedTask w r0) as [w' out] end.
    simpl in *. intros Haw'. congruence.
  - by rewrite Hdc.
  - by rewrite Hhs.
  - by rewrite Hhs.
  - pose proof (setReadyState_surroundings abortPartial r) as Hsur.
    pose proof (setReadyState_readyState abortPartial r) as Hrs.
    unfold surroundings in Hsur. injection Hsur as Hm' Hmr' _ _ _ _ _ _.
    unfold abort. intros _. rewrite Hm', Hmr', Hrs.
    split_and!; [|done..]. by destruct (accepts (readyState r)).
  - unfold runImmediate. destruct (immediates r); [done|]. by intros _.
Qed.

Lemma exec_unstarted events w r :
  sound r → unstarted r → unstarted (exec events (w, r)).2.
Proof.
  revert w r. induction events as [|ev events IH]; intros w r Hsound Hr;
    [done|].
  rewrite exec_cons.
  pose proof (step_sound w r ev Hsound) as Hsound'.
  pose proof (step_unstarted w r ev (proj1 (proj2 Hsound)) Hr) as Hr'.
  destruct (step (w, r) ev) as [w1 r1]. by apply IH.
Qed.

(** At any moment of an invocation, before the awaited task has run the
    state is not done and carries no error. *)
Lemma exec_before_task viaForceFetch querySet mode w events :
  let r := (exec events (w, invocation viaForceFetch querySet mode)).2 in
  awaiting r = true →
  done (readyState r) = false ∧ error (readyState r) = None
  ∧ remainingFetchMap r = ∅ ∧ remainingRequiredFetchMap r = ∅
  ∧ diskCacheCallbacks r = 0 ∧ handlers r = [].
Proof.
  intros r Haw.
  pose proof (invocation_sound viaForceFetch querySet mode) as Hsound0.
  pose proof (exec_sound events w _ Hsound0) as (_ & Hok & _).
  pose proof (exec_unstarted events w _ Hsound0) as Hun.
  pose proof (exec_wellShaped events w _ Hsound0) as [(Hdone & _) _].
  { destruct viaForceFetch; (split; [|by constructor]);
      unfold wellShaped; simpl; by split_and!. }
  fold r in Hok, Hun, Hdone.
  destruct (Hok Haw) as (Hdc & Hhs & Hrd).
  destruct Hun as (He & Hm & Hmr); [by destruct viaForceFetch|done|].
  split_and!; try done.
  destruct (done (readyState r)); [|done].
  destruct (Hdone eq_refl) as [Hr _]. congruence.
Qed.

Lemma registerQuery_handlers mode forceIndex qs w r :
  ∃ fetches,
    handlers (foldl (registerQuery mode forceIndex) (w, r) qs).2
    = handlers r ++ fetches
    ∧ length fetches = length qs.
Proof.
  revert w r. induction qs as [|q qs IH]; intros w r.
  { exists []. by rewrite app_nil_r. }
  change (foldl (registerQuery mode forceIndex) (w, r) (q :: qs))
    with (foldl (registerQuery mode forceIndex)
            (registerQuery mode forceIndex (w, r) q) qs).
  assert (∃ pf, handlers (registerQuery mode forceIndex (w, r) q).2
                = handlers r ++ [pf]) as [pf Hpf].
  { unfold registerQuery. simpl.
    destruct (RelayPendingQueryTracker_add q mode forceIndex w) as [pf w'].
    by exists pf. }
  destruct (registerQuery mode forceIndex (w, r) q) as [w1 r1].
  destruct (IH w1 r1) as (fetches & -> & Hlen). simpl in Hpf.
  exists (pf :: fetches). rewrite Hpf, <-app_assoc. simpl. by rewrite Hlen.
Qed.

(** The awaited task, piece by piece: the registration of the flattened
    queries, then one call of [setReadyState], then the registration of the
    disk-cache callback if that call returned. *)
Lemma awaitedTask_unfold w r :
  let flat := splitAndFlattenQueries (queries r) in
  let w1 := if decide (fetchMode r = FETCH_MODE_REFETCH)
            then (generateForceIndex w).2 else w in
  let c1 := foldl (registerQuery (fetchMode r) (taskForceIndex w r))
              (warn (warned flat) w1, r) (flattenedQueries flat) in
  let out := (awaitedTask w r).2 in
  (awaitedTask w r).1 = c1.1
  ∧ remainingFetchMap (after out) = remainingFetchMap c1.2
  ∧ remainingRequiredFetchMap (after out) = remainingRequiredFetchMap c1.2
  ∧ handlers (after out) = handlers c1.2
  ∧ threw out =
      negb (aborted (readyState r))
      && (done (readyState r) || bool_decide (is_Some (error (readyState r))))
  ∧ diskCacheCallbacks (after out) =
      diskCacheCallbacks r
      + (if hasItems (remainingFetchMap c1.2)
            && hasItems (remainingRequiredFetchMap c1.2) && negb (threw out)
         then 1 else 0).
Proof.
  unfold awaitedTask, taskForceIndex.
  set (flat := splitAndFlattenQueries (queries r)).
  set (w1 := if decide (fetchMode r = FETCH_MODE_REFETCH)
             then (generateForceIndex w).2 else w).
  set (fi := if decide (fetchMode r = FETCH_MODE_REFETCH)
             then Some (forceIndexCounter w) else None).
  assert ((if decide (fetchMode r = FETCH_MODE_REFETCH)
           then let '(i, w') := generateForceIndex w in (Some i, w')
           else (None, w)) = (fi, w1)) as ->.
  { subst fi w1. by case_decide. }
  pose proof (registerQuery_frame (fetchMode r) fi (flattenedQueries flat)
                (warn (warned flat) w1) r) as Hframe.
  destruct (foldl (registerQuery (fetchMode r) fi) (warn (warned flat) w1, r)
              (flattenedQueries flat)) as [w3 r1].
  cbv zeta in Hframe. change ((w3, r1).2) with r1 in *.
  destruct Hframe as (Hc & _ & Hdc & _).
  unfold control in Hc. injection Hc as Hs _ _ _.
  cbv zeta. change ((w3, ?x).1) with w3. change ((w3, ?x).2) with x.
  assert (∀ partial, truthy (p_aborted partial) = false →
            remainingFetchMap (after (setReadyState partial r1))
            = remainingFetchMap r1
            ∧ remainingRequiredFetchMap (after (setReadyState partial r1))
              = remainingRequiredFetchMap r1
            ∧ handlers (after (setReadyState partial r1)) = handlers r1
            ∧ diskCacheCallbacks (after (setReadyState partial r1))
              = diskCacheCallbacks r
            ∧ threw (setReadyState partial r1) =
                negb (aborted (readyState r))
                && (done (readyState r)
                    || bool_decide (is_Some (error (readyState r)))))
    as Hall.
  { intros partial Hpa.
    pose proof (setReadyState_surroundings partial r1) as Hsur.
    unfold surroundings in Hsur. injection Hsur as -> -> _ _ _ -> -> _.
    rewrite setReadyState_threw, Hpa, Hs, andb_true_r. done. }
  destruct (hasItems (remainingFetchMap r1)); simpl.
  2:{ destruct (Hall doneReadyPartial eq_refl) as (-> & -> & -> & -> & ->).
      split_and!; [done..|lia]. }
  destruct (hasItems (remainingRequiredFetchMap r1)); simpl.
  2:{ destruct (Hall (readyPartial true) eq_refl) as (-> & -> & -> & -> & ->).
      split_and!; [done..|lia]. }
  destruct (Hall (readyPartial false) eq_refl) as (Hm & Hmr & Hhs & Hd & Hthr).
  rewrite <-Hthr.
  destruct (setReadyState (readyPartial false) r1) as [r2|msg r2];
    simpl in *; split_and!; try done; lia.
Qed.

(** X4.  In every invocation, whenever the awaited task runs (also after
    [abort()]), it does not throw, and it registers every query of the split
    and flattened list: the remaining map holds exactly their ids, the
    remaining-required map exactly the ids of those that are not deferred,
    one settlement handler is attached per query, and for every query the
    remaining map holds the fetch the registry holds under its id. *)
Theorem awaited_task_registers viaForceFetch querySet mode w events :
  let r0 := invocation viaForceFetch querySet mode in
  let flat := flattenedQueries (splitAndFlattenQueries (queries r0)) in
  let c := exec events (w, r0) in
  let c' := step c EvAwait in
  stepThrows c EvAwait = false
  ∧ (awaiting c.2 = true →
     awaiting c'.2 = false
     ∧ dom (remainingFetchMap c'.2) = list_to_set (getID <$> flat)
     ∧ dom (remainingRequiredFetchMap c'.2) =
         list_to_set (getID <$> filter (λ q, isDeferred q = false) flat)
     ∧ length (handlers c'.2) = length flat
     ∧ Forall (λ query, agree (getID query) c') flat).
Proof.
  intros r0 flat c c'.
  pose proof (exec_before_task viaForceFetch querySet mode w events) as Hbefore.
  pose proof (exec_params events w r0) as [Hqs _].
  cbv zeta in Hbefore. fold r0 c in Hbefore, Hqs.
  subst c'. destruct c as [w1 r]. change ((w1, r).2) with r in *.
  destruct (awaiting r) eqn:Haw.
  2:{ split; [|done]. unfold stepThrows. by rewrite Haw. }
  destruct (Hbefore eq_refl) as (Hd & He & Hm & Hmr & Hdc & Hhs).
  rewrite step_await_pair by done. cbv zeta.
  set (r' := set_loop _ _ _ _ _ _ r).
  assert (queries r' = queries r0) as Hqs' by done.
  destruct (awaitedTask_unfold w1 r')
    as (_ & Hm' & Hmr' & Hhs' & Hthr & _).
  destruct (awaitedTask_world w1 r') as (_ & _ & Hag).
  destruct (awaitedTask_control w1 r') as (Haw' & _).
  cbv zeta in Hm', Hmr', Hhs', Hthr, Haw', Hag.
  rewrite Hqs' in Hm', Hmr', Hhs', Hag. fold flat in Hm', Hmr', Hhs', Hag.
  pose proof (registerQuery_dom (fetchMode r') (taskForceIndex w1 r') flat
     (warn (warned (splitAndFlattenQueries (queries r0)))
        (if decide (fetchMode r' = FETCH_MODE_REFETCH)
         then (generateForceIndex w1).2 else w1)) r') as [Hdom Hdomr].
  destruct (registerQuery_handlers (fetchMode r') (taskForceIndex w1 r') flat
     (warn (warned (splitAndFlattenQueries (queries r0)))
        (if decide (fetchMode r' = FETCH_MODE_REFETCH)
         then (generateForceIndex w1).2 else w1)) r') as (fetches & Hfs & Hlen).
  split.
  { unfold stepThrows. rewrite Haw. fold r'. rewrite Hthr.
    change (readyState r') with (readyState r). rewrite Hd, He.
    by rewrite andb_false_r. }
  intros _. change ((?a, ?b).2) with b.
  rewrite Hm', Hmr', Hhs', Hdom, Hdomr, Hfs.
  change (remainingFetchMap r') with (remainingFetchMap r).
  change (remainingRequiredFetchMap r') with (remainingRequiredFetchMap r).
  change (handlers r') with (handlers r).
  rewrite Hm, Hmr, Hhs, dom_empty_L, !(left_id_L ∅ (∪)).
  split_and!; [done|done|done|by simpl|].
  apply Forall_forall. intros query Hin. by apply Hag.
Qed.

Lemma step_diskCacheCallbacks w r ev :
  awaiting r = false →
  (diskCacheCallbacks (step (w, r) ev).2 ≤ diskCacheCallbacks r)%nat.
Proof.
  intros Haw. destruct ev as [|check|pf isRes|pf e| |]; simpl.
  - rewrite Haw. simpl. lia.
  - destruct (diskCacheCallbacks r) as [|n] eqn:E; simpl; [rewrite E; lia|].
    match goal with |- context [diskCacheCallback check ?r0] =>
      destruct (diskCacheCallback_control check r0) as (_ & _ & -> & _) end.
    simpl. lia.
  - destruct (fire pf (handlers r)) as [hs|]; simpl; [|lia].
    destruct (onResolved_control isRes pf (set_handlers hs r))
      as (_ & _ & -> & _). simpl. lia.
  - destruct (fire pf (handlers r)) as [hs|]; simpl; [|lia].
    destruct (onRejected_control pf e (set_handlers hs r))
      as (_ & _ & -> & _). simpl. lia.
  - pose proof (setReadyState_surroundings abortPartial r) as Hsur.
    unfold surroundings in Hsur. injection Hsur as _ _ _ _ _ Hdc _ _.
    unfold abort. rewrite Hdc. lia.
  - unfold runImmediate. destruct (immediates r); simpl; lia.
Qed.

(** X5.  In every invocation, at every moment, at most one disk-cache
    callback is waiting to run, and none ever is when every query of the
    split and flattened list is deferred (or the list is empty):
    [runWithDiskCache] is called at most once, and only for required
    queries. *)
Theorem diskCache_at_most_once viaForceFetch querySet mode w events :
  let r0 := invocation viaForceFetch querySet mode in
  let flat := flattenedQueries (splitAndFlattenQueries (queries r0)) in
  let r := (exec events (w, r0)).2 in
  (diskCacheCallbacks r ≤ (if forallb isDeferred flat then 0 else 1))%nat.
Proof.
  intros r0 flat. cbv zeta.
  induction events as [|ev events IH] using rev_ind.
  { simpl. subst r0. destruct viaForceFetch; simpl; lia. }
  rewrite exec_app.
  pose proof (exec_before_task viaForceFetch querySet mode w events) as Hbefore.
  pose proof (exec_params events w r0) as [Hqs _].
  cbv zeta in Hbefore. fold r0 in Hbefore.
  destruct (exec events (w, r0)) as [w1 r]. change ((w1, r).2) with r in *.
  change (exec [ev] (w1, r)) with (step (w1, r) ev).
  destruct (awaiting r) eqn:Haw.
  2:{ pose proof (step_diskCacheCallbacks w1 r ev Haw). lia. }
  destruct (Hbefore eq_refl) as (_ & _ & _ & Hmr & Hdc & Hhs).
  destruct ev as [|check|pf isRes|pf e| |].
  - rewrite step_await_pair by done. cbv zeta.
    set (r' := set_loop _ _ _ _ _ _ r).
    destruct (awaitedTask_unfold w1 r') as (_ & _ & _ & _ & _ & Hdc').
    cbv zeta in Hdc'. change ((?a, ?b).2) with b. rewrite Hdc'.
    change (diskCacheCallbacks r') with (diskCacheCallbacks r). rewrite Hdc.
    change (queries r') with (queries r). rewrite Hqs. fold flat.
    pose proof (registerQuery_dom (fetchMode r') (taskForceIndex w1 r') flat
       (warn (warned (splitAndFlattenQueries (queries r0)))
          (if decide (fetchMode r' = FETCH_MODE_REFETCH)
           then (generateForceIndex w1).2 else w1)) r') as [_ Hdomr].
    cbv zeta in Hdomr.
    change (remainingRequiredFetchMap r') with (remainingRequiredFetchMap r)
      in Hdomr.
    rewrite Hmr, dom_empty_L, (left_id_L ∅ (∪)) in Hdomr.
    destruct (forallb isDeferred flat) eqn:Hall.
    + apply filter_required_nil in Hall. rewrite Hall in Hdomr.
      rewrite (hasItems_dom (remainingRequiredFetchMap _)), Hdomr.
      rewrite bool_decide_eq_true_2 by done. simpl.
      rewrite andb_false_r. simpl. lia.
    + match goal with |- context [if ?b then 1 else 0] => destruct b end; lia.
  - simpl. rewrite Hdc. simpl. lia.
  - simpl. rewrite Hhs. simpl. lia.
  - simpl. rewrite Hhs. simpl. lia.
  - pose proof (setReadyState_surroundings abortPartial r) as Hsur.
    unfold surroundings in Hsur. injection Hsur as _ _ _ _ _ Hdc' _ _.
    simpl. unfold abort. rewrite Hdc', Hdc. lia.
  - simpl. unfold runImmediate. destruct (immediates r); simpl; lia.
Qed.

Lemma warn_nil w : warn [] w = w.
Proof. destruct w. unfold warn. simpl. by rewrite app_nil_r. Qed.

Lemma run_nothing_missing (querySet : RelayQuerySet) :
  Forall (λ query, diffRelayQuery query = []) (omap snd querySet) →
  run querySet None = run [] None.
Proof.
  intros Hall. unfold run. rewrite decide_True by done. simpl. f_equal.
  induction querySet as [|[name [q|]] qs IH]; simpl in *; [done| |by apply IH].
  apply Forall_cons in Hall as [-> Hall]. by apply IH.
Qed.

(** X6.  [run] in CLIENT mode on a query set the store already satisfies
    (the diff of every non-null query is empty): the awaited task asks the
    registry for nothing and leaves the shared state as it was, attaches no
    handler, and makes the state done and ready at once; whatever happens
    afterwards the state stays so and the callback is called exactly once,
    with that state, when the queued delivery runs. *)
Theorem nothing_to_fetch querySet w events :
  Forall (λ query, diffRelayQuery query = []) (omap snd querySet) →
  let c1 := step (w, run querySet None) EvAwait in
  let r := (exec events c1).2 in
  c1.1 = w
  ∧ handlers c1.2 = [] ∧ remainingFetchMap c1.2 = ∅
  ∧ control c1.2 = (doneReadyState, true, 1, [])
  ∧ readyState r = doneReadyState
  ∧ (delivered r = [] ∧ immediates r = 1
     ∨ delivered r = [doneReadyState] ∧ immediates r = 0).
Proof.
  intros Hall c1 r. subst r c1. rewrite (run_nothing_missing _ Hall).
  destruct (invocation_fresh false [] None) as [Haw Hfresh].
  change (invocation false [] None) with (run [] None) in Haw, Hfresh.
  rewrite step_await_pair by done. cbv zeta.
  set (r' := set_loop _ _ _ _ _ _ (run [] None)).
  assert (fresh r') as Hfresh' by apply Hfresh.
  assert (flattenedQueries (splitAndFlattenQueries (queries r')) = []
          ∧ warned (splitAndFlattenQueries (queries r')) = []) as [Hflat Hwarn].
  { unfold splitAndFlattenQueries. simpl. by destruct (supports "defer"). }
  destruct (awaitedTask_fresh w r' Hfresh') as (Hc & _ & _ & _ & _).
  destruct (awaitedTask_unfold w r') as (Hw & Hm & _ & Hhs & _ & _).
  cbv zeta in Hc, Hw, Hm, Hhs.
  rewrite Hflat in Hc, Hw, Hm, Hhs. rewrite Hwarn in Hw.
  simpl in Hw, Hm, Hhs. rewrite warn_nil in Hw.
  change ((?a, ?b).1) with a. change ((?a, ?b).2) with b.
  rewrite Hw. split_and!; [done..|exact Hc| |].
  all: destruct (settled_exec events w (after (awaitedTask w r').2))
         as (Hrs & Hdel);
    [unfold control in Hc; injection Hc as _ Hsch Him _;
     unfold tidy; by rewrite Him, Hsch
    |unfold control in Hc; injection Hc as Hs _ _ _; by rewrite Hs|].
  all: unfold control in Hc; injection Hc as Hs Hsch Him Hdl.
  - by rewrite Hrs, Hs.
  - rewrite Hdl, Him, Hs in Hdel.
    destruct Hdel as [[-> ->]|(_ & -> & ->)]; auto.
Qed.

Lemma diffed_omap (querySet : RelayQuerySet) :
  flat_map (λ entry : string * option Query,
    match entry.2 with
    | Some query => diffRelayQuery query
    | None => []
    end) querySet = flat_map diffRelayQuery (omap snd querySet).
Proof.
  induction querySet as [|[name [q|]] qs IH]; simpl; [done| |done].
  by rewrite IH.
Qed.

(** X7.  How [run] treats its fetch mode.  A missing or empty mode is
    CLIENT.  Only in CLIENT mode are the non-null queries of the set replaced
    by their diffs; with any other mode string they are passed on unchanged,
    in order.  The awaited task advances the force-index counter exactly when
    the mode is REFETCH, and the fetches it creates carry the force index
    accordingly. *)
Theorem run_fetch_modes querySet m w :
  let r0 := run querySet (Some m) in
  let c1 := step (w, r0) EvAwait in
  run querySet None = run querySet (Some FETCH_MODE_CLIENT)
  ∧ run querySet (Some "") = run querySet (Some FETCH_MODE_CLIENT)
  ∧ fetchMode r0 = (if decide (m = "") then FETCH_MODE_CLIENT else m)
  ∧ queries r0 =
      (if decide (m = "" ∨ m = FETCH_MODE_CLIENT)
       then flat_map diffRelayQuery (omap snd querySet)
       else omap snd querySet)
  ∧ forceIndexCounter c1.1 =
      (if decide (m = FETCH_MODE_REFETCH)
       then S (forceIndexCounter w) else forceIndexCounter w)
  ∧ (∀ queryID,
       addedWith (fetchMode r0)
         (if decide (m = FETCH_MODE_REFETCH)
          then Some (forceIndexCounter w) else None) queryID w c1.1).
Proof.
  intros r0 c1.
  assert (fetchMode r0 = (if decide (m = "") then FETCH_MODE_CLIENT else m))
    as Hmode by (subst r0; unfold run; by case_decide).
  assert (fetchMode r0 = FETCH_MODE_REFETCH ↔ m = FETCH_MODE_REFETCH)
    as Hrefetch.
  { rewrite Hmode. by destruct (decide (m = "")) as [->|?]. }
  split_and!.
  - done.
  - done.
  - done.
  - subst r0. unfold run.
    destruct (decide (m = "" ∨ m = FETCH_MODE_CLIENT)) as [Hc|Hc].
    + assert ((if decide (m = "") then FETCH_MODE_CLIENT else m)
              = FETCH_MODE_CLIENT) as -> by by destruct Hc as [-> | ->].
      rewrite decide_True by done. apply diffed_omap.
    + assert ((if decide (m = "") then FETCH_MODE_CLIENT else m) = m) as ->
        by (rewrite decide_False; tauto).
      rewrite decide_False by tauto. apply nonNull_omap.
  - subst c1. rewrite step_await_pair by by (subst r0; unfold run).
    cbv zeta. change ((?a, ?b).1) with a.
    match goal with |- context [awaitedTask w ?r] =>
      destruct (awaitedTask_world w r) as (Hfc & _ & _) end.
    rewrite Hfc. change (fetchMode (set_loop _ _ _ _ _ _ r0)) with (fetchMode r0).
    destruct (decide (fetchMode r0 = FETCH_MODE_REFETCH)),
             (decide (m = FETCH_MODE_REFETCH)); try done; by exfalso; tauto.
  - intros queryID. subst c1.
    rewrite step_await_pair by by (subst r0; unfold run).
    cbv zeta. change ((?a, ?b).1) with a.
    match goal with |- context [awaitedTask w ?r] =>
      destruct (awaitedTask_world w r) as (_ & Hadd & _) end.
    specialize (Hadd queryID). unfold taskForceIndex in Hadd.
    change (fetchMode (set_loop _ _ _ _ _ _ r0)) with (fetchMode r0) in Hadd.
    destruct (decide (fetchMode r0 = FETCH_MODE_REFETCH)),
             (decide (m = FETCH_MODE_REFETCH)); try done; by exfalso; tauto.
Qed.

End Further.

Lemma setReadyState_aborted partial r :
  aborted (readyState r) = true → setReadyState partial r = Returns r.
Proof. intros Hab. unfold setReadyState. by rewrite Hab. Qed.

Lemma setReadyState_terminal partial r :
  aborted (readyState r) = false → accepts (readyState r) = false →
  truthy (p_aborted partial) = false →
  setReadyState partial r = Throws unexpected r.
Proof.
  intros Hab Hacc Hpa. unfold setReadyState, accepts in *.
  rewrite Hab in *. simpl in Hacc. apply negb_false_iff in Hacc.
  by rewrite Hacc, Hpa.
Qed.

Lemma onResolved_unfold isResolvable pendingFetch r :
  let m' := delete (fetchID pendingFetch) (remainingFetchMap r) in
  let mr' := if isDeferred (getQuery pendingFetch)
             then remainingRequiredFetchMap r
             else delete (fetchID pendingFetch) (remainingRequiredFetchMap r) in
  onResolved isResolvable pendingFetch r =
  if bool_decide (mr' = ∅) && negb (someObject m' isResolvable)
  then setReadyState (resolvedPartial (bool_decide (m' = ∅))) (set_maps m' mr' r)
  else Returns (set_maps m' mr' r).
Proof.
  intros m' mr'. unfold onResolved, fetchID in *.
  assert ((if negb (isDeferred (getQuery pendingFetch))
           then delete (getID (getQuery pendingFetch))
                  (remainingRequiredFetchMap r)
           else remainingRequiredFetchMap r) = mr') as ->
    by (subst mr'; by destruct (isDeferred (getQuery pendingFetch))).
  fold m'. cbv zeta.
  change (remainingRequiredFetchMap (set_maps m' mr' r)) with mr'.
  change (remainingFetchMap (set_maps m' mr' r)) with m'.
  rewrite !hasItems_dom.
  destruct (decide (mr' = ∅)) as [Hmr|Hmr].
  - rewrite (bool_decide_eq_true_2 (dom mr' = ∅)) by by rewrite Hmr, dom_empty_L.
    rewrite (bool_decide_eq_true_2 (mr' = ∅)) by done. simpl.
    destruct (someObject m' isResolvable); [done|]. simpl.
    destruct (decide (m' = ∅)) as [Hm|Hm].
    + rewrite (bool_decide_eq_true_2 (dom m' = ∅)) by by rewrite Hm, dom_empty_L.
      by rewrite (bool_decide_eq_true_2 (m' = ∅)).
    + rewrite (bool_decide_eq_false_2 (dom m' = ∅)) by by rewrite dom_empty_iff_L.
      by rewrite (bool_decide_eq_false_2 (m' = ∅)).
  - rewrite (bool_decide_eq_false_2 (dom mr' = ∅)) by by rewrite dom_empty_iff_L.
    by rewrite (bool_decide_eq_false_2 (mr' = ∅)).
Qed.

(** X8.  Settlements after [abort()] are swallowed but still tidied up: on
    an aborted state [onResolved] and [onRejected] return without throwing,
    change nothing but the remaining maps, from which they delete the id of
    the fetch (from the remaining-required map when its query is not
    deferred), and the disk-cache callback changes nothing at all. *)
Theorem settlements_after_abort isResolvable check pendingFetch e r :
  let m' := delete (fetchID pendingFetch) (remainingFetchMap r) in
  let mr' := if isDeferred (getQuery pendingFetch)
             then remainingRequiredFetchMap r
             else delete (fetchID pendingFetch) (remainingRequiredFetchMap r) in
  aborted (readyState r) = true →
  onResolved isResolvable pendingFetch r = Returns (set_maps m' mr' r)
  ∧ onRejected pendingFetch e r = Returns (set_maps m' mr' r)
  ∧ diskCacheCallback check r = Returns r.
Proof.
  intros m' mr' Hab. split_and!.
  - rewrite onResolved_unfold. fold m' mr'.
    destruct (_ && _); [|done]. by apply setReadyState_aborted.
  - unfold onRejected. rewrite setReadyState_aborted by done.
    subst m' mr'. unfold fetchID.
    by destruct (isDeferred (getQuery pendingFetch)).
  - unfold diskCacheCallback.
    destruct (hasItems _); [|done]. destruct (everyObject _ _); [|done].
    by apply setReadyState_aborted.
Qed.

(** X9.  Settlements after the state is done or failed (and not aborted)
    raise the invariant violation instead of changing the state: [onRejected]
    throws before it deletes anything; [onResolved] deletes the id from the
    remaining maps and then throws exactly when the remaining-required map is
    empty and no remaining fetch reports itself resolvable; the disk-cache
    callback throws exactly when the remaining-required map is not empty and
    all its fetches can be resolved.  The stored state is never touched. *)
Theorem settlements_after_terminal isResolvable check pendingFetch e r :
  let m' := delete (fetchID pendingFetch) (remainingFetchMap r) in
  let mr' := if isDeferred (getQuery pendingFetch)
             then remainingRequiredFetchMap r
             else delete (fetchID pendingFetch) (remainingRequiredFetchMap r) in
  aborted (readyState r) = false → accepts (readyState r) = false →
  onRejected pendingFetch e r = Throws unexpected r
  ∧ onResolved isResolvable pendingFetch r =
      (if bool_decide (mr' = ∅) && negb (someObject m' isResolvable)
       then Throws unexpected (set_maps m' mr' r)
       else Returns (set_maps m' mr' r))
  ∧ diskCacheCallback check r =
      (if bool_decide (remainingRequiredFetchMap r ≠ ∅)
          && everyObject (remainingRequiredFetchMap r) (canResolve check)
       then Throws unexpected r else Returns r).
Proof.
  intros m' mr' Hab Hacc. split_and!.
  - unfold onRejected. by rewrite setReadyState_terminal.
  - rewrite onResolved_unfold. fold m' mr'.
    destruct (_ && _); [|done]. by apply setReadyState_terminal.
  - unfold diskCacheCallback. rewrite hasItems_dom.
    destruct (decide (remainingRequiredFetchMap r = ∅)) as [Hmr|Hmr].
    + rewrite (bool_decide_eq_true_2 (dom _ = ∅)) by by rewrite Hmr, dom_empty_L.
      by rewrite (bool_decide_eq_false_2 (_ ≠ ∅)) by by intros ?.
    + rewrite (bool_decide_eq_false_2 (dom _ = ∅)) by by rewrite dom_empty_iff_L.
      rewrite (bool_decide_eq_true_2 (_ ≠ ∅)) by done. simpl.
      destruct (everyObject _ _); [|done]. by apply setReadyState_terminal.
Qed.

(** ** Runs without rejection and abort *)

Lemma fire_split pendingFetch hs hs' :
  fire pendingFetch hs = Some hs' →
  ∃ l1 l2, hs = l1 ++ pendingFetch :: l2 ∧ hs' = l1 ++ l2.
Proof.
  revert hs'. induction hs as [|h hs IH]; intros hs' Hfire; [done|].
  simpl in Hfire. destruct (decide (h = pendingFetch)) as [->|Hne].
  - injection Hfire as <-. by exists [], hs.
  - destruct (fire pendingFetch hs) as [rest|]; [|done].
    injection Hfire as <-. destruct (IH rest eq_refl) as (l1 & l2 & -> & ->).
    by exists (h :: l1), l2.
Qed.

Lemma ids_without (l1 l2 : list PendingFetch) pendingFetch :
  NoDup (fetchID <$> (l1 ++ pendingFetch :: l2)) →
  NoDup (fetchID <$> (l1 ++ l2))
  ∧ (list_to_set (fetchID <$> (l1 ++ l2)) : gset string)
    = list_to_set (fetchID <$> (l1 ++ pendingFetch :: l2))
      ∖ {[fetchID pendingFetch]}.
Proof.
  rewrite !fmap_app, fmap_cons. intros Hnd.
  apply NoDup_app in Hnd as (Hl1 & Hdisj & Hl2).
  apply NoDup_cons in Hl2 as [Hnotin Hl2].
  assert (fetchID pendingFetch ∉ fetchID <$> l1) as Hnotin1.
  { intros Hin. apply (Hdisj _ Hin). by left. }
  split.
  - apply NoDup_app. split_and!; [done| |done].
    intros x Hx Hx'. apply (Hdisj x Hx). by right.
  - rewrite !list_to_set_app_L, list_to_set_cons. set_solver.
Qed.

Lemma required_ids_without (l1 l2 : list PendingFetch) pendingFetch :
  NoDup (fetchID <$> (l1 ++ pendingFetch :: l2)) →
  (list_to_set (fetchID <$>
     filter (λ pf, isDeferred (getQuery pf) = false) (l1 ++ l2)) : gset string)
  = list_to_set (fetchID <$>
      filter (λ pf, isDeferred (getQuery pf) = false)
        (l1 ++ pendingFetch :: l2))
    ∖ {[fetchID pendingFetch]}.
Proof.
  intros Hnd. rewrite !filter_app, filter_cons.
  assert (∀ l : list PendingFetch, fetchID pendingFetch ∉ fetchID <$> l →
            fetchID pendingFetch ∉ fetchID <$>
              filter (λ pf, isDeferred (getQuery pf) = false) l) as Hsub.
  { intros l Hnotin Hin. apply Hnotin.
    apply list_elem_of_fmap in Hin as (pf & -> & Hin).
    apply list_elem_of_filter in Hin as [_ Hin].
    apply list_elem_of_fmap. by exists pf. }
  rewrite !fmap_app, fmap_cons in Hnd.
  apply NoDup_app in Hnd as (_ & Hdisj & Hl2).
  apply NoDup_cons in Hl2 as [Hnotin2 _].
  assert (fetchID pendingFetch ∉ fetchID <$> l1) as Hnotin1.
  { intros Hin. apply (Hdisj _ Hin). by left. }
  apply Hsub in Hnotin1, Hnotin2.
  case_decide; rewrite !fmap_app, ?fmap_cons, !list_to_set_app_L,
    ?list_to_set_cons; set_solver.
Qed.

Lemma required_ids_same (l1 l2 : list PendingFetch) pendingFetch :
  isDeferred (getQuery pendingFetch) = true →
  filter (λ pf, isDeferred (getQuery pf) = false) (l1 ++ pendingFetch :: l2)
  = filter (λ pf, isDeferred (getQuery pf) = false) (l1 ++ l2).
Proof.
  intros Hdef. rewrite !filter_app, filter_cons.
  rewrite decide_False; [done|congruence].
Qed.

Lemma fetches_of_queries (fetches : list PendingFetch) (flat : list Query) :
  Forall2 (λ pf q, getQuery pf = q) fetches flat →
  fetchID <$> fetches = getID <$> flat
  ∧ fetchID <$> filter (λ pf, isDeferred (getQuery pf) = false) fetches
    = getID <$> filter (λ q, isDeferred q = false) flat.
Proof.
  induction 1 as [|pf q fetches flat Hq _ [IH1 IH2]]; [done|].
  rewrite !filter_cons, !fmap_cons. unfold fetchID at 1. rewrite Hq, IH1.
  split; [done|]. subst q.
  case_decide; rewrite ?fmap_cons, IH2; done.
Qed.

Section QuietRuns.
Context `{Collaborators}.

Lemma registerQuery_matched mode forceIndex qs w r :
  NoDup (getID <$> qs) → matched w qs →
  ∃ fetches,
    handlers (foldl (registerQuery mode forceIndex) (w, r) qs).2
    = handlers r ++ fetches
    ∧ Forall2 (λ pf q, getQuery pf = q) fetches qs.
Proof.
  revert w r. induction qs as [|q qs IH]; intros w r Hnd Hmatch.
  { exists []. by rewrite app_nil_r. }
  change (foldl (registerQuery mode forceIndex) (w, r) (q :: qs))
    with (foldl (registerQuery mode forceIndex)
            (registerQuery mode forceIndex (w, r) q) qs).
  rewrite fmap_cons in Hnd. apply NoDup_cons in Hnd as [Hnotin Hnd].
  assert (∃ pf, getQuery pf = q
            ∧ handlers (registerQuery mode forceIndex (w, r) q).2
              = handlers r ++ [pf]
            ∧ matched (registerQuery mode forceIndex (w, r) q).1 qs)
    as (pf & Hq & Hpf & Hmatch').
  { unfold registerQuery, RelayPendingQueryTracker_add. simpl.
    destruct (registry w !! getID q) as [pf0|] eqn:Hreg; simpl.
    - exists pf0. split_and!; [|done|].
      + apply (Hmatch q pf0); [by left|done].
      + intros q' pf' Hin Hreg'. apply (Hmatch q' pf'); [by right|done].
    - exists {| getQuery := q; getFetchMode := mode;
                getForceIndex := forceIndex; instance := nextInstance w |}.
      split_and!; [done|done|].
      intros q' pf' Hin Hreg'. simpl in Hreg'.
      rewrite lookup_insert_ne in Hreg'.
      + apply (Hmatch q' pf'); [by right|done].
      + intros Heq. apply Hnotin. rewrite Heq.
        apply list_elem_of_fmap. by exists q'. }
  destruct (registerQuery mode forceIndex (w, r) q) as [w1 r1].
  destruct (IH w1 r1 Hnd Hmatch') as (fetches & -> & Hall). simpl in Hpf.
  exists (pf :: fetches). rewrite Hpf, <-app_assoc. split; [done|].
  by constructor.
Qed.

Lemma ids_nil (hs : list PendingFetch) :
  (list_to_set (fetchID <$> hs) : gset string) = ∅ ↔ hs = [].
Proof.
  rewrite list_to_set_empty_iff. split; [apply fmap_nil_inv|by intros ->].
Qed.

Lemma booked_ext r1 r2 :
  awaiting r1 = false → awaiting r2 = false →
  handlers r2 = handlers r1 →
  remainingFetchMap r2 = remainingFetchMap r1 →
  remainingRequiredFetchMap r2 = remainingRequiredFetchMap r1 →
  readyState r2 = readyState r1 →
  booked r1 → booked r2.
Proof.
  unfold booked. intros -> -> -> -> -> ->. done.
Qed.

Lemma quiet_await flat w r :
  NoDup (getID <$> flat) →
  flattenedQueries (splitAndFlattenQueries (queries r)) = flat →
  matched w flat →
  fresh r → handlers r = [] →
  threw (awaitedTask w r).2 = false
  ∧ (awaiting r = false → booked (after (awaitedTask w r).2)).
Proof.
  intros Hnd Hflat Hmatch Hfresh Hhs.
  destruct (awaitedTask_fresh w r Hfresh) as (Hc & _ & Hdom & Hdomr & Hthr).
  destruct (awaitedTask_unfold w r) as (_ & _ & _ & Hhs' & _ & _).
  destruct (awaitedTask_control w r) as (Haw' & _).
  cbv zeta in Hc, Hdom, Hdomr, Hhs', Haw'. rewrite Hflat in Hc, Hdom, Hdomr, Hhs'.
  split; [done|]. intros Haw.
  match type of Hhs' with _ = handlers (foldl _ (?W, _) _).2 =>
    destruct (registerQuery_matched (fetchMode r) (taskForceIndex w r) flat W r)
      as (fetches & Hfs & Hall) end; [done| |].
  { intros q pf Hin Hreg. apply (Hmatch q pf Hin).
    revert Hreg. unfold warn. simpl. by case_decide. }
  rewrite Hfs, Hhs in Hhs'. simpl in Hhs'.
  destruct (fetches_of_queries fetches flat Hall) as [Hids Hrids].
  unfold control in Hc. injection Hc as Hs _ _ _.
  unfold booked. rewrite Haw', Haw, Hhs', Hdom, Hdomr, Hids, Hrids, Hs.
  destruct Hall as [|pf q fetches flat Hq Hall].
  - simpl. split_and!; [done|done|constructor|done|done|done|by left].
  - rewrite (bool_decide_eq_false_2 (_ = [])) by done.
    unfold firstReadyState.
    destruct (forallb isDeferred (q :: flat)); simpl;
      (split_and!; [done|done|done|done|done|done|by right]).
Qed.

Lemma quiet_diskCache check r :
  awaiting r = false → booked r →
  threw (diskCacheCallback check r) = false
  ∧ booked (after (diskCacheCallback check r)).
Proof.
  intros Haw Hb. unfold diskCacheCallback.
  destruct (hasItems (remainingRequiredFetchMap r)) eqn:Hreq; [|done].
  destruct (everyObject _ _); [|done].
  pose proof Hb as Hb'. unfold booked in Hb'. rewrite Haw in Hb'.
  destruct Hb' as (Hab & He & Hnd & Hdom & Hdomr & Hdone & Hshape).
  assert (handlers r ≠ []) as Hne.
  { intros Hnil. rewrite Hnil in Hdomr. simpl in Hdomr.
    rewrite hasItems_dom, Hdomr in Hreq.
    by rewrite bool_decide_eq_true_2 in Hreq. }
  rewrite bool_decide_eq_false_2 in Hdone by done.
  assert (accepts (readyState r) = true) as Hacc.
  { unfold accepts. by rewrite Hab, Hdone, He. }
  pose proof (setReadyState_readyState readyStalePartial r) as Hrs.
  pose proof (setReadyState_surroundings readyStalePartial r) as Hsur.
  rewrite Hacc in Hrs. unfold surroundings in Hsur.
  injection Hsur as Hm Hmr _ _ Haw' _ Hhs _.
  split.
  { rewrite setReadyState_threw, Hab, Hdone, He. done. }
  unfold booked. rewrite Haw', Haw, Hhs, Hm, Hmr, Hrs.
  unfold mergeReadyState. simpl. rewrite Hab, He, Hdone.
  rewrite (bool_decide_eq_false_2 (handlers r = [])) by done.
  split_and!; try done. by right.
Qed.

Lemma quiet_resolved isResolvable pendingFetch hs r :
  awaiting r = false → booked r →
  fire pendingFetch (handlers r) = Some hs →
  threw (onResolved isResolvable pendingFetch (set_handlers hs r)) = false
  ∧ booked (after (onResolved isResolvable pendingFetch (set_handlers hs r))).
Proof.
  intros Haw Hb Hfire.
  destruct (fire_split _ _ _ Hfire) as (l1 & l2 & Hhs & ->).
  unfold booked in Hb. rewrite Haw, Hhs in Hb.
  destruct Hb as (Hab & He & Hnd & Hdom & Hdomr & Hdone & _).
  rewrite bool_decide_eq_false_2 in Hdone by by destruct l1.
  destruct (ids_without l1 l2 pendingFetch Hnd) as [Hnd' Hids].
  pose proof (required_ids_without l1 l2 pendingFetch Hnd) as Hrids.
  rewrite onResolved_unfold. cbv zeta.
  set (r1 := set_handlers (l1 ++ l2) r).
  change (remainingFetchMap r1) with (remainingFetchMap r).
  change (remainingRequiredFetchMap r1) with (remainingRequiredFetchMap r).
  set (m' := delete (fetchID pendingFetch) (remainingFetchMap r)).
  set (mr' := if isDeferred (getQuery pendingFetch)
              then remainingRequiredFetchMap r
              else delete (fetchID pendingFetch) (remainingRequiredFetchMap r)).
  assert (dom m' = list_to_set (fetchID <$> l1 ++ l2)) as Hdom'.
  { subst m'. by rewrite dom_delete_L, Hdom, Hids. }
  assert (dom mr' = list_to_set (fetchID <$>
            filter (λ pf, isDeferred (getQuery pf) = false) (l1 ++ l2)))
    as Hdomr'.
  { subst mr'. destruct (isDeferred (getQuery pendingFetch)) eqn:Hdef.
    - by rewrite Hdomr, required_ids_same.
    - by rewrite dom_delete_L, Hdomr, Hrids. }
  assert (accepts (readyState r) = true) as Hacc.
  { unfold accepts. by rewrite Hab, Hdone, He. }
  destruct (bool_decide (mr' = ∅) && negb (someObject m' isResolvable))
    eqn:Hemits.
  - pose proof (setReadyState_readyState
                  (resolvedPartial (bool_decide (m' = ∅))) (set_maps m' mr' r1))
      as Hrs.
    pose proof (setReadyState_surroundings
                  (resolvedPartial (bool_decide (m' = ∅))) (set_maps m' mr' r1))
      as Hsur.
    change (readyState (set_maps m' mr' r1)) with (readyState r) in Hrs.
    rewrite Hacc in Hrs. unfold surroundings in Hsur.
    injection Hsur as Hm Hmr _ _ Haw' _ Hhs' _.
    split.
    { rewrite setReadyState_threw.
      change (readyState (set_maps m' mr' r1)) with (readyState r).
      by rewrite Hab, Hdone, He. }
    unfold booked. rewrite Haw', Hhs', Hm, Hmr, Hrs. simpl.
    rewrite Haw, Hab, He, Hdom', Hdomr'.
    assert (bool_decide (m' = ∅) = bool_decide (l1 ++ l2 = [])) as ->.
    { apply bool_decide_ext. rewrite <-ids_nil, <-Hdom'.
      by rewrite dom_empty_iff_L. }
    split_and!; try done. unfold mergeReadyState. simpl. rewrite Hab, He.
    unfold doneReadyState. destruct (bool_decide (l1 ++ l2 = [])); auto.
  - split; [done|]. simpl.
    assert (l1 ++ l2 ≠ []) as Hne.
    { intros Hnil. rewrite Hnil in Hdom', Hdomr'. simpl in Hdom', Hdomr'.
      apply dom_empty_iff_L in Hdom', Hdomr'.
      rewrite (bool_decide_eq_true_2 _ Hdomr') in Hemits. simpl in Hemits.
      apply negb_false_iff, someObject_Exists in Hemits
        as (k & v & Hkv & _).
      by rewrite Hdom', lookup_empty in Hkv. }
    unfold booked. simpl. rewrite Haw, Hab, He, Hdone, Hdom', Hdomr'.
    rewrite (bool_decide_eq_false_2 (l1 ++ l2 = [])) by done.
    split_and!; try done. by right.
Qed.

Lemma step_quiet flat w r ev :
  NoDup (getID <$> flat) →
  quiet ev = true →
  flattenedQueries (splitAndFlattenQueries (queries r)) = flat →
  (awaiting r = true → matched w flat) →
  booked r →
  stepThrows (w, r) ev = false
  ∧ booked (step (w, r) ev).2
  ∧ (awaiting (step (w, r) ev).2 = true → (step (w, r) ev).1 = w).
Proof.
  intros Hnd Hquiet Hflat Hmatch Hb.
  destruct (awaiting r) eqn:Haw.
  - pose proof Hb as Hb'. unfold booked in Hb'. rewrite Haw in Hb'.
    destruct Hb' as [Hfresh Hhs].
    destruct Hfresh as (Hc & Hm & Hmr & Hdc).
    unfold control in Hc. injection Hc as Hs Hsch Him Hdl.
    destruct ev as [|check|pf isRes|pf e| |]; try discriminate.
    + rewrite step_await_pair by done. unfold stepThrows. rewrite Haw.
      cbv zeta. set (r' := set_loop _ _ _ _ _ _ r).
      destruct (quiet_await flat w r') as [Hthr Hb'];
        [done|done|by apply Hmatch| |done|].
      { unfold fresh, control. simpl. by rewrite Hs, Hsch, Him, Hdl, Hm, Hmr, Hdc. }
      destruct (awaitedTask_control w r') as (Haw' & _).
      change ((?a, ?b).2) with b. change ((?a, ?b).1) with a.
      split_and!; [done|by apply Hb'|].
      cbv zeta in Haw'. rewrite Haw'. done.
    + simpl. by rewrite Hdc.
    + simpl. by rewrite Hhs.
    + simpl. unfold runImmediate. by rewrite Him.
  - destruct ev as [|check|pf isRes|pf e| |]; try discriminate.
    + simpl. by rewrite Haw.
    + simpl. destruct (diskCacheCallbacks r) as [|n]; [done|].
      set (r0 := set_loop _ _ _ _ _ _ r).
      destruct (quiet_diskCache check r0) as [Hthr Hb']; [done| |].
      { by apply (booked_ext r). }
      split_and!; [done..|].
      destruct (diskCacheCallback_control check r0) as (_ & Haw' & _).
      cbv zeta in Haw'. simpl. rewrite Haw'. simpl. by rewrite Haw.
    + simpl. destruct (fire pf (handlers r)) as [hs|] eqn:Hfire; [|done].
      destruct (quiet_resolved isRes pf hs r Haw Hb Hfire) as [Hthr Hb'].
      split_and!; [done..|].
      destruct (onResolved_control isRes pf (set_handlers hs r))
        as (_ & Haw' & _).
      cbv zeta in Haw'. simpl. rewrite Haw'. simpl. by rewrite Haw.
    + simpl. unfold runImmediate.
      destruct (immediates r); (split_and!; [done| |by simpl; rewrite Haw]);
        [done|by apply (booked_ext r)].
Qed.

Lemma exec_quiet flat events w r :
  NoDup (getID <$> flat) →
  forallb quiet events = true →
  flattenedQueries (splitAndFlattenQueries (queries r)) = flat →
  (awaiting r = true → matched w flat) →
  booked r →
  execThrows events (w, r) = false ∧ booked (exec events (w, r)).2.
Proof.
  intros Hnd. revert w r.
  induction events as [|ev events IH]; intros w r Hquiet Hflat Hmatch Hb;
    [done|].
  simpl in Hquiet. apply andb_true_iff in Hquiet as [Hev Hquiet].
  rewrite exec_cons. cbn [execThrows].
  destruct (step_quiet flat w r ev Hnd Hev Hflat Hmatch Hb)
    as (Hthr & Hb' & Hw).
  pose proof (step_progress w r ev) as (Hqs & _).
  pose proof (step_awaiting w r ev) as Hno.
  cbv zeta in Hqs.
  destruct (step (w, r) ev) as [w1 r1]. change ((w1, r1).2) with r1 in *.
  change ((w1, r1).1) with w1 in *.
  rewrite Hthr. simpl. apply IH; [done| by rewrite Hqs | |done].
  intros Haw1. rewrite (Hw Haw1). apply Hmatch.
  destruct (awaiting r) eqn:Haw; [done|].
  specialize (Hno eq_refl). congruence.
Qed.

(** X10.  A run in which no fetch rejects and the caller does not abort,
    for an invocation whose split and flattened queries have distinct ids and
    whose outstanding fetches, if the registry has any under these ids, are
    fetches of these very queries.  No handler ever throws; the remaining
    maps always hold exactly the ids of the handlers that have not fired yet;
    and the state is done exactly when the awaited task has run and every
    handler has fired, in which case it is the state ready, done and not
    stale, and that is the last state the callback receives once the queued
    delivery has run. *)
Theorem all_resolved_done viaForceFetch querySet mode w events :
  let r0 := invocation viaForceFetch querySet mode in
  let flat := flattenedQueries (splitAndFlattenQueries (queries r0)) in
  let r := (exec events (w, r0)).2 in
  NoDup (getID <$> flat) → matched w flat → forallb quiet events = true →
  execThrows events (w, r0) = false
  ∧ booked r
  ∧ (if negb (awaiting r) && bool_decide (handlers r = [])
     then readyState r = doneReadyState
          ∧ last (delivered (runImmediate r)) = Some doneReadyState
     else done (readyState r) = false).
Proof.
  intros r0 flat r Hnd Hmatch Hquiet.
  destruct (invocation_fresh viaForceFetch querySet mode) as [Haw0 Hfresh0].
  fold r0 in Haw0, Hfresh0.
  destruct (exec_quiet flat events w r0) as [Hthr Hb]; [done..| |].
  { unfold booked. rewrite Haw0. split; [done|]. subst r0.
    by destruct viaForceFetch. }
  fold r in Hb. split_and!; [done..|].
  pose proof (exec_sound events w r0 (invocation_sound _ _ _)) as (Ht & _).
  pose proof (exec_caughtUp events w r0 (invocation_sound _ _ _)) as Hup.
  cbv zeta in Hup. fold r in Ht, Hup.
  unfold booked in Hb. destruct (awaiting r); simpl.
  { destruct Hb as [(Hc & _) _]. unfold control in Hc.
    by injection Hc as -> _ _ _. }
  destruct Hb as (_ & _ & _ & _ & _ & Hdone & Hshape).
  destruct (bool_decide (handlers r = [])); [|done].
  destruct Hshape as [Hs|?]; [|congruence].
  split; [done|]. unfold runImmediate, tidy in *.
  destruct Hup as [Hsch|[[_ Hinit]|Hlast]].
  - { right; left. by subst r0; destruct viaForceFetch. }
  - rewrite Hsch in Ht. rewrite Ht. simpl. by rewrite last_snoc, Hs.
  - rewrite Hs in Hinit. discriminate.
  - destruct (immediates r); [by rewrite Hlast, Hs|].
    simpl. by rewrite last_snoc, Hs.
Qed.

End QuietRuns.

(** X11.  [abort()] is idempotent: on any closure, a second call changes
    nothing and does not throw, whether the first call aborted the invocation
    or was ignored. *)
Theorem abort_idempotent r :
  abort (after (abort r)) = Returns (after (abort r)).
Proof.
  unfold abort.
  destruct (aborted (readyState r)) eqn:Hab.
  { rewrite (setReadyState_aborted abortPartial r Hab). simpl.
    by apply setReadyState_aborted. }
  destruct (accepts (readyState r)) eqn:Hacc.
  - apply setReadyState_aborted. rewrite setReadyState_readyState, Hacc.
    done.
  - rewrite (setReadyState_rejects abortPartial r Hacc).
    unfold setReadyState, accepts in *. rewrite Hab in *. simpl in Hacc.
    apply negb_false_iff in Hacc. by rewrite Hacc.
Qed.

(** ** The further properties with a hypothesis, at concrete inputs *)

Section FurtherExamples.
#[local] Existing Instance withDefer.

(** [abort()] before the awaited task: the task still registers both
    queries. *)
Lemma awaited_task_registers_witness :
  let c := exec [EvAbort] (initialWorld, forceFetch setAB) in
  let c' := step c EvAwait in
  awaiting c.2 = true
  ∧ awaiting c'.2 = false
  ∧ dom (remainingFetchMap c'.2) = list_to_set ["A"; "B"]
  ∧ length (handlers c'.2) = 2.
Proof.
  intros c c'.
  assert (awaiting c.2 = true) as Haw by (vm_compute; reflexivity).
  destruct (proj2 (awaited_task_registers true setAB None initialWorld
                     [EvAbort]) Haw) as (Haw' & Hdom & _ & Hlen & _).
  split_and!; [exact Haw|exact Haw'|exact Hdom|exact Hlen].
Defined.

Lemma nothing_to_fetch_witness :
  let c1 := step (H := cachedCollaborators)
              (initialWorld, run (H := cachedCollaborators) setAB None)
              EvAwait in
  Forall (λ query, diffRelayQuery (Collaborators := cachedCollaborators) query
                   = []) (omap snd setAB)
  ∧ c1.1 = initialWorld
  ∧ handlers c1.2 = []
  ∧ readyState (exec (H := cachedCollaborators) [EvImmediate; EvAbort] c1).2
    = doneReadyState.
Proof.
  intros c1.
  assert (Forall (λ query,
            diffRelayQuery (Collaborators := cachedCollaborators) query = [])
            (omap snd setAB)) as Hall by (repeat constructor).
  destruct (nothing_to_fetch (H := cachedCollaborators) setAB initialWorld
              [EvImmediate; EvAbort] Hall) as (Hw & Hhs & _ & _ & Hrs & _).
  split_and!; [exact Hall|exact Hw|exact Hhs|exact Hrs].
Defined.

Lemma settlements_after_abort_witness :
  let r := (exec [EvAwait; EvAbort] (initialWorld, forceFetch setAB)).2 in
  aborted (readyState r) = true
  ∧ onRejected fetchA "boom" r
    = Returns (set_maps (delete "A" (remainingFetchMap r))
                 (delete "A" (remainingRequiredFetchMap r)) r).
Proof.
  intros r.
  assert (aborted (readyState r) = true) as Hab by (vm_compute; reflexivity).
  destruct (settlements_after_abort (λ _, false) (λ _, true) fetchA "boom" r
              Hab) as (_ & Hrej & _).
  split; [exact Hab|exact Hrej].
Defined.

Lemma settlements_after_terminal_witness :
  let r := (exec [EvAwait; EvRejected fetchA "boom"]
              (initialWorld, forceFetch setAB)).2 in
  aborted (readyState r) = false ∧ accepts (readyState r) = false
  ∧ onRejected fetchB "bam" r = Throws unexpected r.
Proof.
  intros r.
  assert (aborted (readyState r) = false) as Hab by (vm_compute; reflexivity).
  assert (accepts (readyState r) = false) as Hacc by (vm_compute; reflexivity).
  destruct (settlements_after_terminal (λ _, false) (λ _, true) fetchB "bam" r
              Hab Hacc) as (Hrej & _).
  split_and!; [exact Hab|exact Hacc|exact Hrej].
Defined.

Lemma all_resolved_done_witness :
  let events := [EvAwait; EvDiskCache (λ _, false); EvImmediate;
                 EvResolved fetchB (λ _, false);
                 EvResolved fetchA (λ _, false); EvImmediate] in
  let r := (exec events (initialWorld, forceFetch setAB)).2 in
  execThrows events (initialWorld, forceFetch setAB) = false
  ∧ readyState r = doneReadyState.
Proof.
  intros events r.
  assert (NoDup (getID <$> flattenedQueries
            (splitAndFlattenQueries (queries (forceFetch setAB))))) as Hnd.
  { change (NoDup ["A"; "B"]). repeat constructor; set_solver. }
  assert (matched initialWorld (flattenedQueries
            (splitAndFlattenQueries (queries (forceFetch setAB))))) as Hmatch.
  { intros q pf _ Hreg. simpl in Hreg. by rewrite lookup_empty in Hreg. }
  assert (forallb quiet events = true) as Hquiet by reflexivity.
  destruct (all_resolved_done true setAB None initialWorld events
              Hnd Hmatch Hquiet) as (Hthr & _ & Hfin).
  split; [exact Hthr|exact (proj1 Hfin)].
Defined.

End FurtherExamples.
